(** * Partitioner: graph and mapping loaders, partition-id interpreter

    A shallow embedding of [src/partition/partitioner.cpp] (namespace
    [osrm::partition]) and the properties its specification states.

    Conventions.
    - [std::uint32_t], [NodeID] and [EdgeID] are [Z] in [0, 2^32); the
      wrap-around of 32-bit arithmetic is written out with [u32].
    - A file is a [list byte]; the reader's stream position is the list of
      bytes still to be read.  Plain-old-data is stored in host byte order,
      taken here to be little-endian.
    - [std::vector] is [list]; [v[i]] is list lookup, and an access out of
      range (undefined behaviour in the source) is [None].
    - [std::unordered_map] is stdpp's [gmap]; its [insert] keeps an entry
      that is already present.
    - [double] arithmetic in [get_level] is read as real arithmetic. *)

From Stdlib Require Import ZArith Lia List Bool QArith.
From Stdlib Require Import Strings.Byte.
From Stdlib Require Import Rbase Rfunctions Rpower Zfloor Lra.
From stdpp Require Import base option list gmap fin_maps sorting.

Local Open Scope Z_scope.

(** * Part I: the model *)

(** ** Declarations the translation unit takes from elsewhere

    [util/typedefs.hpp], [util/fingerprint.hpp] and the build configuration
    are not part of the translation unit; what it uses of them is collected
    here. *)
Class Environment := {
  (** [sizeof(util::FingerPrint)] *)
  fingerprint_size : nat;
  (** the test [FileReader] applies to the header under [VerifyFingerprint] *)
  fingerprint_valid : list byte -> bool;
  (** [SPECIAL_NODEID] of [util/typedefs.hpp] *)
  SPECIAL_NODEID : Z;
  (** whether [BOOST_ASSERT] expands to a check (debug build) or to nothing *)
  assertions_enabled : bool
}.

(** ** 32-bit integers and their byte images *)

Definition u32 (z : Z) : Z := z mod 2 ^ 32.

Definition is_u32 (z : Z) : Prop := 0 <= z < 2 ^ 32.

Definition is_u64 (z : Z) : Prop := 0 <= z < 2 ^ 64.

Definition is_i32 (z : Z) : Prop := - 2 ^ 31 <= z < 2 ^ 31.

(** Reinterpretation of a 32-bit pattern as [std::int32_t]. *)
Definition to_int32 (z : Z) : Z := if z <? 2 ^ 31 then z else z - 2 ^ 32.

Definition byte_to_Z (b : byte) : Z := Z.of_N (Byte.to_N b).

Definition byte_of_Z (z : Z) : byte :=
  default x00 (Byte.of_N (Z.to_N (z mod 256))).

Fixpoint le_decode (bs : list byte) : Z :=
  match bs with
  | [] => 0
  | b :: bs' => byte_to_Z b + 256 * le_decode bs'
  end.

Fixpoint le_encode (n : nat) (z : Z) : list byte :=
  match n with
  | O => []
  | S n' => byte_of_Z z :: le_encode n' (z / 256)
  end.

(** ** [storage::io::FileReader] *)

Inductive IOError : Type :=
  | FingerprintMismatch
  | UnexpectedEndOfFile.

(** A read either throws or yields a value and the advanced stream. *)
Definition IO (A : Type) : Type := list byte -> IOError + (A * list byte).

Definition io_ret {A} (a : A) : IO A := fun s => inr (a, s).

Definition io_bind {A B} (m : IO A) (k : A -> IO B) : IO B :=
  fun s => match m s with
           | inl e => inl e
           | inr (a, s') => k a s'
           end.

Notation "x <- m ;; k" := (io_bind m (fun x => k))
  (at level 100, m at next level, right associativity).

(** Modelled from the spec: [FileReader]'s raw read (storage/io.hpp is not
    part of the translation unit).  A read of [n] bytes from a stream that
    holds fewer is the fatal truncated-file error. *)
Definition ReadBytes (n : nat) : IO (list byte) :=
  fun s => if (n <=? length s)%nat then inr (take n s, drop n s)
           else inl UnexpectedEndOfFile.

(** Modelled from the spec: [FileReader::ReadOne<T>] for a 32-bit unsigned
    [T] ([NodeID], [EdgeID]). *)
Definition ReadOne_u32 : IO Z :=
  bs <- ReadBytes 4 ;; io_ret (le_decode bs).

(** Modelled from the spec: [FileReader::ReadElementCount64], the [uint64]
    count that precedes a section. *)
Definition ReadElementCount64 : IO Z :=
  bs <- ReadBytes 8 ;; io_ret (le_decode bs).

Fixpoint decode_elements {T} (size : nat) (decode : list byte -> T)
    (n : nat) (bs : list byte) : list T :=
  match n with
  | O => []
  | S n' => decode (take size bs) :: decode_elements size decode n' (drop size bs)
  end.

(** Modelled from the spec: [FileReader::ReadInto(std::vector<T>&)], which
    fills the vector, at the size it already has, with consecutive records
    of [sizeof(T)] bytes. *)
Definition ReadInto {T} (size : nat) (decode : list byte -> T) (v : list T)
    : IO (list T) :=
  bs <- ReadBytes (length v * size) ;;
  io_ret (decode_elements size decode (length v) bs).

(** Modelled from the spec: the constructor [FileReader(path,
    VerifyFingerprint)], applied to the content of the file at [path].  The
    header is read and tested; a mismatch is the fatal format error. *)
Definition open_reader `{Environment} (file : list byte) : IOError + list byte :=
  match ReadBytes fingerprint_size file with
  | inl e => inl e
  | inr (header, s) =>
      if fingerprint_valid header then inr s else inl FingerprintMismatch
  end.

(** ** The compressed node-based graph *)

Record CompressedNodeBasedGraphEdge := {
  source : Z;
  target : Z
}.

(** [util::Coordinate]: fixed-point longitude and latitude, [int32] each. *)
Record Coordinate := {
  lon : Z;
  lat : Z
}.

Record CompressedNodeBasedGraph := {
  edges : list CompressedNodeBasedGraphEdge;
  coordinates : list Coordinate
}.

Definition decode_edge (bs : list byte) : CompressedNodeBasedGraphEdge :=
  {| source := le_decode (take 4 bs); target := le_decode (drop 4 bs) |}.

Definition decode_coordinate (bs : list byte) : Coordinate :=
  {| lon := to_int32 (le_decode (take 4 bs));
     lat := to_int32 (le_decode (drop 4 bs)) |}.

(** [std::vector::resize]: cut, or pad with value-initialised elements. *)
Definition resize {T} (n : nat) (d : T) (v : list T) : list T :=
  take n v ++ replicate (n - length v) d.

(** The constructor [CompressedNodeBasedGraph(FileReader &)]. *)
Definition CompressedNodeBasedGraph_read : IO CompressedNodeBasedGraph :=
  num_edges <- ReadElementCount64 ;;
  num_nodes <- ReadElementCount64 ;;
  let edges0 := resize (Z.to_nat num_edges) {| source := 0; target := 0 |} [] in
  let coordinates0 := resize (Z.to_nat num_nodes) {| lon := 0; lat := 0 |} [] in
  edges1 <- ReadInto 8 decode_edge edges0 ;;
  coordinates1 <- ReadInto 8 decode_coordinate coordinates0 ;;
  io_ret {| edges := edges1; coordinates := coordinates1 |}.

(** [LoadCompressedNodeBasedGraph], on the content of the file at [path]:
    an exception leaves no graph behind. *)
Definition LoadCompressedNodeBasedGraph `{Environment} (file : list byte)
    : IOError + CompressedNodeBasedGraph :=
  match open_reader file with
  | inl e => inl e
  | inr s =>
      match CompressedNodeBasedGraph_read s with
      | inl e => inl e
      | inr (graph, _) => inr graph
      end
  end.

(** The layout the reader expects:
    [| Fingerprint | #e | #n | edges | coordinates |]. *)
Definition encode_edge (e : CompressedNodeBasedGraphEdge) : list byte :=
  le_encode 4 (source e) ++ le_encode 4 (target e).

Definition encode_coordinate (c : Coordinate) : list byte :=
  le_encode 4 (lon c) ++ le_encode 4 (lat c).

Definition graph_file (fingerprint : list byte)
    (es : list CompressedNodeBasedGraphEdge) (cs : list Coordinate) : list byte :=
  fingerprint ++ le_encode 8 (Z.of_nat (length es))
              ++ le_encode 8 (Z.of_nat (length cs))
              ++ concat (map encode_edge es)
              ++ concat (map encode_coordinate cs).

(** The size, in bytes, a graph file must have for the counts it declares
    ([None] when the file ends before the two counts). *)
Definition declared_graph_size `{Environment} (file : list byte) : option Z :=
  let body := drop fingerprint_size file in
  if (fingerprint_size + 16 <=? length file)%nat
  then Some (Z.of_nat fingerprint_size + 16
             + 8 * le_decode (take 8 body)
             + 8 * le_decode (take 8 (drop 8 body)))
  else None.

Definition truncated_graph_file `{Environment} (file : list byte) : Prop :=
  match declared_graph_size file with
  | None => True
  | Some n => Z.of_nat (length file) < n
  end.

(** ** The node-based to edge-based mapping *)

Record NodeBasedNodes := {
  u : Z;
  v : Z
}.

Record NodeBasedGraphToEdgeBasedGraphMapping := {
  heads : gmap Z NodeBasedNodes;
  tails : gmap Z NodeBasedNodes
}.

(** [std::unordered_map::insert]: no effect when the key is present. *)
Definition unordered_map_insert (k : Z) (x : NodeBasedNodes)
    (m : gmap Z NodeBasedNodes) : gmap Z NodeBasedNodes :=
  match m !! k with
  | Some _ => m
  | None => <[k := x]> m
  end.

(** The body of the constructor's loop, [num_mappings] times. *)
Fixpoint read_mappings (n : nat) (m : NodeBasedGraphToEdgeBasedGraphMapping)
    : IO NodeBasedGraphToEdgeBasedGraphMapping :=
  match n with
  | O => io_ret m
  | S n' =>
      u <- ReadOne_u32 ;;
      v <- ReadOne_u32 ;;
      head <- ReadOne_u32 ;;
      tail <- ReadOne_u32 ;;
      read_mappings n'
        {| heads := unordered_map_insert head {| u := u; v := v |} (heads m);
           tails := unordered_map_insert tail {| u := u; v := v |} (tails m) |}
  end.

(** The constructor [NodeBasedGraphToEdgeBasedGraphMapping(FileReader &)];
    [reserve] does not change the content of a map. *)
Definition NodeBasedGraphToEdgeBasedGraphMapping_read
    : IO NodeBasedGraphToEdgeBasedGraphMapping :=
  num_mappings <- ReadElementCount64 ;;
  read_mappings (Z.to_nat num_mappings) {| heads := ∅; tails := ∅ |}.

Definition LoadNodeBasedGraphToEdgeBasedGraphMapping `{Environment}
    (file : list byte) : IOError + NodeBasedGraphToEdgeBasedGraphMapping :=
  match open_reader file with
  | inl e => inl e
  | inr s =>
      match NodeBasedGraphToEdgeBasedGraphMapping_read s with
      | inl e => inl e
      | inr (mapping, _) => inr mapping
      end
  end.

(** What a call of [Lookup] does: it returns a pair, or the process stops
    in [BOOST_ASSERT(false)]. *)
Inductive LookupOutcome : Type :=
  | Returned (nodes : NodeBasedNodes)
  | AssertionFailed.

Definition Lookup `{Environment} (m : NodeBasedGraphToEdgeBasedGraphMapping)
    (edge_based_node : Z) : LookupOutcome :=
  match heads m !! edge_based_node with
  | Some nodes => Returned nodes
  | None =>
      match tails m !! edge_based_node with
      | Some nodes => Returned nodes
      | None =>
          if assertions_enabled then AssertionFailed
          else Returned {| u := SPECIAL_NODEID; v := SPECIAL_NODEID |}
      end
  end.

(** One chunk [u v head tail] of a mapping file, and the layout
    [| Fingerprint | #mappings | u v head tail | u v head tail | ..]. *)
Record MappingRecord := {
  rec_u : Z;
  rec_v : Z;
  rec_head : Z;
  rec_tail : Z
}.

Definition rec_nodes (r : MappingRecord) : NodeBasedNodes :=
  {| u := rec_u r; v := rec_v r |}.

Definition encode_record (r : MappingRecord) : list byte :=
  le_encode 4 (rec_u r) ++ le_encode 4 (rec_v r)
  ++ le_encode 4 (rec_head r) ++ le_encode 4 (rec_tail r).

Definition mapping_file (fingerprint : list byte) (rs : list MappingRecord)
    : list byte :=
  fingerprint ++ le_encode 8 (Z.of_nat (length rs))
              ++ concat (map encode_record rs).

Definition record_ok (r : MappingRecord) : Prop :=
  is_u32 (rec_u r) /\ is_u32 (rec_v r) /\ is_u32 (rec_head r) /\ is_u32 (rec_tail r).

(** ** The partition-id interpreter of [LogGeojson] *)

(** The lambda [reverse_bits]: five swap rounds on a [std::uint32_t]. *)
Definition reverse_bits (x : Z) : Z :=
  let x := u32 (Z.lor (Z.land (Z.shiftr x 1) 0x55555555)
                      (u32 (Z.shiftl (Z.land x 0x55555555) 1))) in
  let x := u32 (Z.lor (Z.land (Z.shiftr x 2) 0x33333333)
                      (u32 (Z.shiftl (Z.land x 0x33333333) 2))) in
  let x := u32 (Z.lor (Z.land (Z.shiftr x 4) 0x0f0f0f0f)
                      (u32 (Z.shiftl (Z.land x 0x0f0f0f0f) 4))) in
  let x := u32 (Z.lor (Z.land (Z.shiftr x 8) 0x00ff00ff)
                      (u32 (Z.shiftl (Z.land x 0x00ff00ff) 8))) in
  let x := u32 (Z.lor (Z.land (Z.shiftr x 16) 0xffff)
                      (u32 (Z.shiftl (Z.land x 0xffff) 16))) in
  x.

(** One swap round, as each assignment of the lambda is written. *)
Definition swap_round (s m x : Z) : Z :=
  u32 (Z.lor (Z.land (Z.shiftr x s) m) (u32 (Z.shiftl (Z.land x m) s))).

(** Conversion of a [double] to [std::uint32_t]: the fractional part is
    discarded (truncation toward zero). *)
Definition double_to_u32 (r : R) : Z :=
  if Rlt_dec r 0 then Zceil r else Zfloor r.

(** The lambda [get_level].  [log] and [/] on [double] are taken as the real
    logarithm and the real quotient.  For [lhs = rhs] the source computes
    [log(0)], whose conversion to an unsigned integer is undefined: [None]. *)
Definition get_level (lhs rhs : Z) : option Z :=
  let xored := Z.lxor lhs rhs in
  if xored =? 0 then None
  else Some (double_to_u32 (ln (IZR xored) / ln 2)).

(** Modelled from the spec: the public contract of the bisection graph
    (partition/bisection_graph.hpp is not part of the translation unit):
    one node entry per coordinate and, per node, its slice of outgoing
    arcs, of which only the target is kept. *)
Record BisectionGraph := {
  graph_nodes : list Coordinate;
  graph_edges : list (list Z)
}.

Definition NumberOfNodes (g : BisectionGraph) : Z :=
  Z.of_nat (length (graph_nodes g)).

Definition Node (g : BisectionGraph) (id : Z) : option Coordinate :=
  graph_nodes g !! Z.to_nat id.

Definition Edges (g : BisectionGraph) (id : Z) : list Z :=
  default [] (graph_edges g !! Z.to_nat id).

(** [border_vertices]: 33 buckets of coordinates. *)
Abbreviation BorderVertices := (list (list Coordinate)).

(** [border_vertices[level].push_back(c)] *)
Definition push_back_at (level : Z) (c : Coordinate) (bv : BorderVertices)
    : option BorderVertices :=
  match bv !! Z.to_nat level with
  | Some bucket => Some (<[Z.to_nat level := bucket ++ [c]]> bv)
  | None => None
  end.

Fixpoint fold_option {A B} (f : A -> B -> option A) (a : A) (l : list B)
    : option A :=
  match l with
  | [] => Some a
  | b :: l' =>
      match f a b with
      | Some a' => fold_option f a' l'
      | None => None
      end
  end.

(** The body of the inner loop of [LogGeojson], for the arc from [nid] to
    [edge_target]. *)
Definition visit_edge (bisection_ids : list Z) (graph : BisectionGraph)
    (nid source_id : Z) (bv : BorderVertices) (edge_target : Z)
    : option BorderVertices :=
  match bisection_ids !! Z.to_nat edge_target with
  | None => None
  | Some id =>
      let target_id := reverse_bits id in
      if negb (source_id =? target_id) then
        match get_level source_id target_id with
        | None => None
        | Some level =>
            match Node graph nid, Node graph edge_target with
            | Some c_source, Some c_target =>
                match push_back_at level c_source bv with
                | Some bv' => push_back_at level c_target bv'
                | None => None
                end
            | _, _ => None
            end
        end
      else Some bv
  end.

(** The body of the outer loop, for node [nid]. *)
Definition visit_node (bisection_ids : list Z) (graph : BisectionGraph)
    (bv : BorderVertices) (nid : Z) : option BorderVertices :=
  match bisection_ids !! Z.to_nat nid with
  | None => None
  | Some id =>
      let source_id := reverse_bits id in
      fold_option (visit_edge bisection_ids graph nid source_id) bv
                  (Edges graph nid)
  end.

(** The first loop of [LogGeojson]: the boundary vertices of every level. *)
Definition collect_border_vertices (graph : BisectionGraph)
    (bisection_ids : list Z) : option BorderVertices :=
  fold_option (visit_node bisection_ids graph) (replicate 33 [])
              (seqZ 0 (NumberOfNodes graph)).

(** ** The recursive bisection engine *)

(** The four parameters [Partitioner::Run] passes from its configuration. *)
Record PartitionConfig := {
  maximum_cell_size : Z;
  balance : Q;
  boundary_factor : Q;
  num_optimizing_cuts : Z
}.

Inductive BisectionError : Type :=
  | ConfigurationError
  | DepthOverflow.

(** Modelled from the spec: the parameter check that precedes the recursion
    (partition/recursive_bisection.hpp is not part of the translation
    unit): [maximum_cell_size >= 1], [balance] in (0, 1],
    [boundary_factor >= 0], [num_optimizing_cuts >= 1]. *)
Definition valid_config (c : PartitionConfig) : bool :=
  (1 <=? maximum_cell_size c)
  && negb (Qle_bool (balance c) 0) && Qle_bool (balance c) 1
  && Qle_bool 0 (boundary_factor c)
  && (1 <=? num_optimizing_cuts c).

(** Modelled from the spec: candidate generation, scoring and selection
    (steps 2 and 3 of the algorithm) are a heuristic the specification
    leaves open; the chosen 2-way split of a subset is given by the side,
    0 or 1, of each of its nodes. *)
Class CutSelection :=
  select_cut : PartitionConfig -> BisectionGraph -> list Z -> Z -> bool.

(** Modelled from the spec: step 4, the bit of recursion depth [depth] is
    set in the identifier of a node on side 1. *)
Definition assign_bit (depth : Z) (ids : list Z) (node : Z) : list Z :=
  alter (fun id => Z.lor id (Z.shiftl 1 depth)) (Z.to_nat node) ids.

(** Modelled from the spec: the recursion (steps 1, 4 and 5).  [fuel] is the
    number of identifier bits still free; a subset that must be split when
    none is left is the reportable overflow. *)
Fixpoint bisect `{CutSelection} (fuel : nat) (config : PartitionConfig)
    (graph : BisectionGraph) (depth : Z) (subset : list Z) (ids : list Z)
    : BisectionError + list Z :=
  if Z.of_nat (length subset) <=? maximum_cell_size config then inr ids
  else
    match fuel with
    | O => inl DepthOverflow
    | S fuel' =>
        let side := select_cut config graph subset in
        let zeros := List.filter (fun n => negb (side n)) subset in
        let ones := List.filter side subset in
        let ids1 := foldl (assign_bit depth) ids ones in
        match bisect fuel' config graph (depth + 1) zeros ids1 with
        | inl e => inl e
        | inr ids2 => bisect fuel' config graph (depth + 1) ones ids2
        end
    end.

Record RecursiveBisection := {
  bisection_ids : list Z
}.

Definition BisectionIDs (rb : RecursiveBisection) : list Z := bisection_ids rb.

(** Modelled from the spec: construction of the engine computes the whole
    partition, one identifier per node, all bits 0 at the start. *)
Definition RecursiveBisection_new `{CutSelection} (config : PartitionConfig)
    (graph : BisectionGraph) : BisectionError + RecursiveBisection :=
  if valid_config config then
    match bisect 32 config graph 0 (seqZ 0 (NumberOfNodes graph))
                 (replicate (length (graph_nodes graph)) 0) with
    | inl e => inl e
    | inr ids => inr {| bisection_ids := ids |}
    end
  else inl ConfigurationError.

(** ** Notions used to state the properties *)

Definition edge_ok (e : CompressedNodeBasedGraphEdge) : Prop :=
  is_u32 (source e) /\ is_u32 (target e).

Definition coordinate_ok (c : Coordinate) : Prop :=
  is_i32 (lon c) /\ is_i32 (lat c).

Definition empty_mapping : NodeBasedGraphToEdgeBasedGraphMapping :=
  {| heads := ∅; tails := ∅ |}.

(** The two insertions of one round of the constructor's loop. *)
Definition insert_record (m : NodeBasedGraphToEdgeBasedGraphMapping)
    (r : MappingRecord) : NodeBasedGraphToEdgeBasedGraphMapping :=
  {| heads := unordered_map_insert (rec_head r) (rec_nodes r) (heads m);
     tails := unordered_map_insert (rec_tail r) (rec_nodes r) (tails m) |}.

(** The pair of the first chunk whose key is [k]. *)
Definition first_nodes (key : MappingRecord -> Z) (k : Z)
    (rs : list MappingRecord) : option NodeBasedNodes :=
  rec_nodes <$> List.find (fun r => key r =? k) rs.

(** ** Sample inputs *)

(** A release build: eight header bytes that start with the magic number,
    the largest [NodeID] as sentinel, assertions compiled out. *)
Definition release_build : Environment := {|
  fingerprint_size := 8;
  fingerprint_valid := fun header =>
    match header with
    | x4f :: x53 :: x52 :: x4e :: _ => true
    | _ => false
    end;
  SPECIAL_NODEID := 4294967295;
  assertions_enabled := false
|}.

Definition sample_fingerprint : list byte :=
  [x4f; x53; x52; x4e; x05; x07; x00; x00].

Definition corrupted_fingerprint : list byte :=
  [x00; x53; x52; x4e; x05; x07; x00; x00].

(** Two arcs, the second to a node the file has no coordinate for. *)
Definition sample_edges : list CompressedNodeBasedGraphEdge :=
  [ {| source := 0; target := 1 |}; {| source := 1; target := 7 |} ].

Definition sample_coordinates : list Coordinate :=
  [ {| lon := 13388860; lat := 52517037 |};
    {| lon := -74005941; lat := 40712784 |} ].

(** Two chunks that share their head, and a third whose tail is that head. *)
Definition sample_records : list MappingRecord :=
  [ {| rec_u := 1; rec_v := 2; rec_head := 10; rec_tail := 11 |};
    {| rec_u := 3; rec_v := 4; rec_head := 10; rec_tail := 12 |};
    {| rec_u := 5; rec_v := 6; rec_head := 13; rec_tail := 10 |} ].

Definition distinct_records : list MappingRecord :=
  [ {| rec_u := 1; rec_v := 2; rec_head := 10; rec_tail := 11 |};
    {| rec_u := 3; rec_v := 4; rec_head := 12; rec_tail := 13 |} ].

(** A path of four nodes, and the split of a subset at its median id. *)
Definition path_graph : BisectionGraph := {|
  graph_nodes := [ {| lon := 0; lat := 0 |}; {| lon := 1; lat := 0 |};
                   {| lon := 2; lat := 0 |}; {| lon := 3; lat := 0 |} ];
  graph_edges := [ [1]; [0; 2]; [1; 3]; [2] ]
|}.

Definition median_cut : CutSelection :=
  fun _ _ subset node =>
    Z.of_nat (length (List.filter (fun n => n <? node) subset))
    >=? Z.of_nat (length subset) / 2.

Definition sample_config : PartitionConfig := {|
  maximum_cell_size := 1;
  balance := 1;
  boundary_factor := 0;
  num_optimizing_cuts := 1
|}.

(** ** The output loop of [LogGeojson] *)

(** The comparator handed to [std::sort]:
    [std::tie(lhs.lon, lhs.lat) < std::tie(rhs.lon, rhs.lat)]. *)
Definition coordinate_less (lhs rhs : Coordinate) : bool :=
  (lon lhs <? lon rhs) || ((lon lhs =? lon rhs) && (lat lhs <? lat rhs)).

(** [operator==] on [util::Coordinate], which [std::unique] applies: both
    fixed-point components agree. *)
Definition coordinate_eqb (lhs rhs : Coordinate) : bool :=
  (lon lhs =? lon rhs) && (lat lhs =? lat rhs).

Fixpoint sort_insert (c : Coordinate) (l : list Coordinate) : list Coordinate :=
  match l with
  | [] => [c]
  | x :: l' => if coordinate_less c x then c :: x :: l'
               else x :: sort_insert c l'
  end.

(** [std::sort] with [coordinate_less].  Two coordinates that the comparator
    does not order are equal, so every sorting algorithm yields the list
    computed here ([std_sort_unique_result] below). *)
Definition std_sort (l : list Coordinate) : list Coordinate :=
  foldr sort_insert [] l.

(** [std::unique] followed by [erase]: of each run of equal neighbours the
    first element stays; [kept] is the element last kept. *)
Fixpoint unique_after (kept : Coordinate) (l : list Coordinate)
    : list Coordinate :=
  match l with
  | [] => []
  | y :: l' => if coordinate_eqb kept y then unique_after kept l'
               else y :: unique_after y l'
  end.

Definition std_unique (l : list Coordinate) : list Coordinate :=
  match l with
  | [] => []
  | x :: l' => x :: unique_after x l'
  end.

(** Orders on coordinates read off the comparator: [rhs] is not before
    [lhs], and [lhs] is before [rhs]. *)
Definition coordinate_le (lhs rhs : Coordinate) : Prop :=
  coordinate_less rhs lhs = false.

Definition coordinate_lt (lhs rhs : Coordinate) : Prop :=
  coordinate_less lhs rhs = true.

(** [!bv.empty()] *)
Definition nonempty (bv : list Coordinate) : bool :=
  match bv with
  | [] => false
  | _ :: _ => true
  end.

(** One call [guard.Write(bv, jslevel)]: the vertices and the number stored
    under ["level"]. *)
Record Feature := {
  feature_level : Z;
  feature_vertices : list Coordinate
}.

(** The second loop of [LogGeojson], from the value [level] of the counter:
    the features written, in the order of the calls. *)
Fixpoint write_levels (level : Z) (border_vertices : BorderVertices)
    : list Feature :=
  match border_vertices with
  | [] => []
  | bv :: rest =>
      if nonempty bv then
        {| feature_level := level;
           feature_vertices := std_unique (std_sort bv) |}
        :: write_levels (level + 1) rest
      else write_levels level rest
  end.

(** Both loops of [LogGeojson] on a bisection graph and its identifiers. *)
Definition LogGeojson_features (graph : BisectionGraph)
    (bisection_ids : list Z) : option (list Feature) :=
  match collect_border_vertices graph bisection_ids with
  | Some border_vertices => Some (write_levels 0 border_vertices)
  | None => None
  end.

(** The shape the loop keeps: 33 buckets, the last one empty, every bucket
    a sequence of pairs of coordinates of the graph. *)
Definition border_invariant (graph : BisectionGraph) (bv : BorderVertices)
    : Prop :=
  length bv = 33%nat
  /\ bv !! 32%nat = Some []
  /\ Forall (fun bucket =>
       Nat.Even (length bucket)
       /\ Forall (fun c => c ∈ graph_nodes graph) bucket) bv.

(** ** The grid generator of the unit tests (graph_generator.hpp)

    [int] arithmetic is exact where it does not overflow (an overflow is
    undefined); [static_cast<NodeID>] of an [int] wraps into 32 bits. *)
Module GraphGenerator.

Record EdgeWithSomeAdditionalData := {
  source : Z;
  target : Z;
  important_data : Z
}.

(** The lambda [get_id]. *)
Definition get_id (id_base columns r c : Z) : Z := id_base + r * columns + c.

(** The lambda [valid]. *)
Definition valid (min_id max_id id : Z) : bool :=
  (min_id <=? id) && (id <? max_id).

(** The body of the inner loop of [makeGridEdges]: the edges pushed for the
    cell in row [r] and column [c], in the order left, right, top, bottom. *)
Definition cell_edges (rows columns id_base r c : Z)
    : list EdgeWithSomeAdditionalData :=
  let min_id := id_base in
  let max_id := id_base + rows * columns in
  let id := u32 (get_id id_base columns r c) in
  (if 0 <? c then
     let left := get_id id_base columns r (c - 1) in
     [ {| source := id; target := u32 left; important_data := 1 |} ]
   else [])
  ++ (if c + 1 <? columns then
        let right := get_id id_base columns r (c + 1) in
        if valid min_id max_id right then
          [ {| source := id; target := u32 right; important_data := 1 |} ]
        else []
      else [])
  ++ (if 0 <? r then
        let top := get_id id_base columns (r - 1) c in
        if valid min_id max_id top then
          [ {| source := id; target := u32 top; important_data := 1 |} ]
        else []
      else [])
  ++ (if r + 1 <? rows then
        let bottom := get_id id_base columns (r + 1) c in
        if valid min_id max_id bottom then
          [ {| source := id; target := u32 bottom; important_data := 1 |} ]
        else []
      else []).

(** [makeGridEdges]: rows outermost, columns innermost. *)
Definition makeGridEdges (rows columns id_base : Z)
    : list EdgeWithSomeAdditionalData :=
  flat_map (fun r =>
    flat_map (fun c => cell_edges rows columns id_base r c) (seqZ 0 columns))
    (seqZ 0 rows).

(** Two cells of the grid that are neighbours in a row or in a column. *)
Definition adjacent (r c r' c' : Z) : Prop :=
  (r' = r /\ (c' = c - 1 \/ c' = c + 1))
  \/ (c' = c /\ (r' = r - 1 \/ r' = r + 1)).

(** The edge from the cell in row [r], column [c] to the cell in row [r'],
    column [c']. *)
Definition grid_edge (id_base columns r c r' c' : Z)
    : EdgeWithSomeAdditionalData :=
  {| source := get_id id_base columns r c;
     target := get_id id_base columns r' c';
     important_data := 1 |}.

(** What [makeGridCoordinates] needs of [double] and of the constructor of
    [util::Coordinate] from a floating longitude and latitude
    (util/coordinate.hpp): the operations are left open. *)
Class FloatOps := {
  double : Type;
  double_add : double -> double -> double;
  double_mul : double -> double -> double;
  double_of_int : Z -> double;
  make_coordinate : double -> double -> Coordinate
}.

(** The element pushed for row [r] and column [c]:
    [{FloatLongitude{lon_base + c * step_size},
      FloatLatitude{lat_base + r * step_size}}]. *)
Definition grid_coordinate `{FloatOps} (step_size lon_base lat_base : double)
    (r c : Z) : Coordinate :=
  make_coordinate
    (double_add lon_base (double_mul (double_of_int c) step_size))
    (double_add lat_base (double_mul (double_of_int r) step_size)).

(** [makeGridCoordinates]: rows outermost, columns innermost. *)
Definition makeGridCoordinates `{FloatOps} (rows columns : Z)
    (step_size lon_base lat_base : double) : list Coordinate :=
  flat_map (fun r =>
    map (fun c => grid_coordinate step_size lon_base lat_base r c)
        (seqZ 0 columns))
    (seqZ 0 rows).

End GraphGenerator.

(** Sum of [f] over a list of integers. *)
Definition sumZ (f : Z -> Z) (l : list Z) : Z :=
  foldr (fun x acc => f x + acc) 0 l.

(** A stand-in for [double] in examples: integers, with the coordinate
    taken as it is. *)
Definition integer_floats : GraphGenerator.FloatOps := {|
  GraphGenerator.double := Z;
  GraphGenerator.double_add := Z.add;
  GraphGenerator.double_mul := Z.mul;
  GraphGenerator.double_of_int := fun z => z;
  GraphGenerator.make_coordinate := fun x y => {| lon := x; lat := y |}
|}.

(** ** The reversal of the 32-bit order, as the specification words it

    A second definition, apart from the code's [reverse_bits], to compare it
    with. *)

(** The value whose bit [31 - i] is bit [i] of [x], for the positions
    [i < n]: the positions are visited one by one, without swap rounds. *)
Fixpoint mirror_low_bits (n : nat) (x : Z) : Z :=
  match n with
  | O => 0
  | S i =>
      Z.lor (if Z.testbit x (Z.of_nat i) then 2 ^ (31 - Z.of_nat i) else 0)
            (mirror_low_bits i x)
  end.

(** A 32-bit value read in the opposite bit order. *)
Definition mirrored_32 (x : Z) : Z := mirror_low_bits 32 x.

(** ** The graph constructor with its allocations

    [edges.resize(num_edges)] and [coordinates.resize(num_nodes)] run before
    the two [ReadInto] calls and can fail on their own: [std::length_error]
    for a count above [max_size()], [std::bad_alloc] when the memory is not
    to be had.  [CompressedNodeBasedGraph_read] above is the constructor
    where both allocations succeed. *)









(** * Part II: properties *)

(** ** Bit-level facts about [reverse_bits] *)

Example reverse_bits_1 : reverse_bits 1 = 2 ^ 31.
Proof. reflexivity. Qed.

Example reverse_bits_6 : reverse_bits 6 = 0x60000000.
Proof. reflexivity. Qed.

Lemma u32_range z : is_u32 (u32 z).
Proof. unfold is_u32, u32. apply Z.mod_pos_bound. lia. Qed.

Lemma u32_testbit_low z i : 0 <= i < 32 -> Z.testbit (u32 z) i = Z.testbit z i.
Proof. intros Hi. unfold u32. apply Z.mod_pow2_bits_low. lia. Qed.

Lemma u32_testbit_high z i : 32 <= i -> Z.testbit (u32 z) i = false.
Proof. intros Hi. unfold u32. apply Z.mod_pow2_bits_high. lia. Qed.

Lemma u32_small z : is_u32 z -> u32 z = z.
Proof. intros Hz. unfold u32. apply Z.mod_small. exact Hz. Qed.

Lemma is_u32_testbit_high x i : is_u32 x -> 32 <= i -> Z.testbit x i = false.
Proof.
  intros Hx Hi. rewrite <- (u32_small x Hx). apply u32_testbit_high. exact Hi.
Qed.

Lemma reverse_bits_rounds x :
  reverse_bits x =
  swap_round 16 0xffff
    (swap_round 8 0x00ff00ff
      (swap_round 4 0x0f0f0f0f
        (swap_round 2 0x33333333
          (swap_round 1 0x55555555 x)))).
Proof. unfold reverse_bits, swap_round. reflexivity. Qed.

(** A round moves bit [i + s] down to [i] where the mask has bit [i], and
    bit [i - s] up to [i] where the mask has bit [i - s]. *)
Lemma swap_round_testbit s m x i :
  0 <= s -> 0 <= i < 32 ->
  Z.testbit (swap_round s m x) i =
  (Z.testbit x (i + s) && Z.testbit m i) ||
  (Z.testbit x (i - s) && Z.testbit m (i - s)).
Proof.
  intros Hs Hi. unfold swap_round.
  rewrite u32_testbit_low by lia.
  rewrite Z.lor_spec, Z.land_spec, Z.shiftr_spec by lia.
  rewrite u32_testbit_low by lia.
  rewrite Z.shiftl_spec by lia.
  rewrite Z.land_spec. reflexivity.
Qed.

(** Case analysis on a bit position of a 32-bit word. *)
Lemma bit_position_cases (P : Z -> Prop) :
  P 0 -> P 1 -> P 2 -> P 3 -> P 4 -> P 5 -> P 6 -> P 7 ->
  P 8 -> P 9 -> P 10 -> P 11 -> P 12 -> P 13 -> P 14 -> P 15 ->
  P 16 -> P 17 -> P 18 -> P 19 -> P 20 -> P 21 -> P 22 -> P 23 ->
  P 24 -> P 25 -> P 26 -> P 27 -> P 28 -> P 29 -> P 30 -> P 31 ->
  forall i, 0 <= i < 32 -> P i.
Proof.
  intros.
  assert (Hn : exists n, i = Z.of_nat n /\ (n < 32)%nat).
  { exists (Z.to_nat i). lia. }
  destruct Hn as (n & -> & Hn).
  do 32 (destruct n as [|n]; [assumption|]). lia.
Qed.

Lemma reverse_bits_testbit x i :
  0 <= i < 32 -> Z.testbit (reverse_bits x) i = Z.testbit x (31 - i).
Proof.
  revert i. apply bit_position_cases;
  rewrite reverse_bits_rounds;
  repeat (rewrite swap_round_testbit by lia; cbn;
          rewrite ?andb_true_r, ?andb_false_r, ?orb_false_r, ?orb_false_l);
  reflexivity.
Qed.

Lemma reverse_bits_range x : is_u32 (reverse_bits x).
Proof. rewrite reverse_bits_rounds. unfold swap_round at 1. apply u32_range. Qed.

Lemma reverse_bits_twice x : is_u32 x -> reverse_bits (reverse_bits x) = x.
Proof.
  intros Hx. apply Z.bits_inj'. intros n Hn.
  destruct (Z.lt_ge_cases n 32) as [Hlt | Hge].
  - rewrite !reverse_bits_testbit by lia. f_equal. lia.
  - rewrite (is_u32_testbit_high x n Hx Hge).
    apply is_u32_testbit_high; [apply reverse_bits_range | exact Hge].
Qed.

Lemma reverse_bits_inj x y :
  is_u32 x -> is_u32 y -> reverse_bits x = reverse_bits y -> x = y.
Proof.
  intros Hx Hy Heq.
  rewrite <- (reverse_bits_twice x Hx), <- (reverse_bits_twice y Hy).
  now rewrite Heq.
Qed.

Lemma is_u32_lxor x y : is_u32 x -> is_u32 y -> is_u32 (Z.lxor x y).
Proof.
  intros Hx Hy. unfold is_u32 in *. split.
  - apply Z.lxor_nonneg. lia.
  - destruct (Z.eq_dec (Z.lxor x y) 0) as [-> | Hne]; [lia|].
    assert (Hpos : 0 < Z.lxor x y).
    { pose proof (proj2 (Z.lxor_nonneg x y)) as Hnn. lia. }
    apply Z.log2_lt_pow2; [exact Hpos|].
    pose proof (Z.log2_lxor x y) as Hl.
    assert (Z.log2 x < 32).
    { destruct (Z.eq_dec x 0) as [-> | ?]; [cbn; lia|].
      apply Z.log2_lt_pow2; lia. }
    assert (Z.log2 y < 32).
    { destruct (Z.eq_dec y 0) as [-> | ?]; [cbn; lia|].
      apply Z.log2_lt_pow2; lia. }
    lia.
Qed.

(** Reversal commutes with exclusive or. *)
Lemma reverse_bits_lxor x y :
  is_u32 x -> is_u32 y ->
  Z.lxor (reverse_bits x) (reverse_bits y) = reverse_bits (Z.lxor x y).
Proof.
  intros Hx Hy. apply Z.bits_inj'. intros n Hn.
  destruct (Z.lt_ge_cases n 32) as [Hlt | Hge].
  - rewrite Z.lxor_spec, !reverse_bits_testbit by lia.
    now rewrite Z.lxor_spec.
  - rewrite (is_u32_testbit_high (reverse_bits _) n (reverse_bits_range _) Hge).
    apply is_u32_testbit_high; [|exact Hge].
    apply is_u32_lxor; apply reverse_bits_range.
Qed.

(** A single set bit is mirrored to the opposite position. *)
Lemma reverse_bits_pow2 d : 0 <= d < 32 -> reverse_bits (2 ^ d) = 2 ^ (31 - d).
Proof.
  intros Hd. apply Z.bits_inj'. intros n Hn.
  destruct (Z.lt_ge_cases n 32) as [Hlt | Hge].
  - rewrite reverse_bits_testbit by lia.
    rewrite !Z.pow2_bits_eqb by lia.
    destruct (Z.eqb_spec d (31 - n)), (Z.eqb_spec (31 - d) n); lia || reflexivity.
  - rewrite (is_u32_testbit_high _ n (reverse_bits_range _) Hge).
    rewrite Z.pow2_bits_eqb by lia. symmetry. apply Z.eqb_neq. lia.
Qed.

(** ** The level formula *)

Lemma ln_2_pos : (0 < ln 2)%R.
Proof. pose proof ln_lt_2. lra. Qed.

Lemma ln_pow2 (k : Z) : 0 <= k -> ln (IZR (2 ^ k)) = (IZR k * ln 2)%R.
Proof.
  intros Hk. rewrite <- (Z2Nat.id k Hk) at 1.
  rewrite <- pow_IZR, ln_pow by lra.
  rewrite INR_IZR_INZ, Z2Nat.id by exact Hk. reflexivity.
Qed.

Lemma ln_le_mono x y : (0 < x)%R -> (x <= y)%R -> (ln x <= ln y)%R.
Proof.
  intros Hx [Hlt | ->]; [left; now apply ln_increasing | right; reflexivity].
Qed.

(** The truncated quotient of logarithms is the integer binary logarithm. *)
Lemma log2_quotient_truncated (x : Z) :
  0 < x -> double_to_u32 (ln (IZR x) / ln 2) = Z.log2 x.
Proof.
  intros Hx.
  pose proof (Z.log2_nonneg x) as Hk.
  destruct (Z.log2_spec x Hx) as [Hlo Hhi].
  pose proof ln_2_pos as Hln2.
  assert (Hpos : (0 < IZR (2 ^ Z.log2 x))%R).
  { apply IZR_lt. apply Z.pow_pos_nonneg; lia. }
  assert (H1 : (IZR (Z.log2 x) * ln 2 <= ln (IZR x))%R).
  { rewrite <- ln_pow2 by exact Hk.
    apply ln_le_mono; [exact Hpos|]. now apply IZR_le. }
  assert (H2 : (ln (IZR x) < (IZR (Z.log2 x) + 1) * ln 2)%R).
  { rewrite <- plus_IZR. rewrite <- ln_pow2 by lia.
    apply ln_increasing; [now apply IZR_lt|]. apply IZR_lt.
    replace (Z.log2 x + 1) with (Z.succ (Z.log2 x)) by lia. exact Hhi. }
  assert (Hq : (IZR (Z.log2 x) <= ln (IZR x) / ln 2 < IZR (Z.log2 x) + 1)%R).
  { assert (Hmul : (ln (IZR x) / ln 2 * ln 2 = ln (IZR x))%R) by (field; lra).
    split.
    - apply (Rmult_le_reg_r (ln 2)); [exact Hln2 | rewrite Hmul; exact H1].
    - apply (Rmult_lt_reg_r (ln 2)); [exact Hln2 | rewrite Hmul; exact H2]. }
  unfold double_to_u32. destruct (Rlt_dec _ 0) as [Hneg | _].
  - exfalso. apply IZR_le in Hk. lra.
  - now apply Zfloor_eq.
Qed.

Lemma get_level_log2 lhs rhs :
  is_u32 lhs -> is_u32 rhs -> lhs <> rhs ->
  get_level lhs rhs = Some (Z.log2 (Z.lxor lhs rhs)).
Proof.
  intros Hl Hr Hne. unfold get_level.
  assert (Hx : Z.lxor lhs rhs <> 0) by (rewrite Z.lxor_eq_0_iff; exact Hne).
  destruct (Z.eqb_spec (Z.lxor lhs rhs) 0) as [? | _]; [contradiction|].
  f_equal. apply log2_quotient_truncated.
  pose proof (is_u32_lxor lhs rhs Hl Hr) as Hu. unfold is_u32 in Hu. lia.
Qed.

Lemma get_level_same x : get_level x x = None.
Proof. unfold get_level. now rewrite Z.lxor_nilpotent. Qed.

(** C10: [reverse_bits] sends bit [i] of a 32-bit value to bit [31 - i] of
    the result, and applying it twice gives the value back. *)
Theorem reverse_bits_mirror_involution (x : Z) :
  is_u32 x ->
  (forall i, 0 <= i < 32 ->
     Z.testbit (reverse_bits x) (31 - i) = Z.testbit x i)
  /\ is_u32 (reverse_bits x)
  /\ reverse_bits (reverse_bits x) = x.
Proof.
  intros Hx. split; [|split].
  - intros i Hi. rewrite reverse_bits_testbit by lia. f_equal. lia.
  - apply reverse_bits_range.
  - now apply reverse_bits_twice.
Qed.

Lemma reverse_bits_mirror_involution_witness :
  is_u32 6 /\
  (forall i, 0 <= i < 32 ->
     Z.testbit (reverse_bits 6) (31 - i) = Z.testbit 6 i)
  /\ is_u32 (reverse_bits 6)
  /\ reverse_bits (reverse_bits 6) = 6.
Proof.
  assert (H6 : is_u32 6) by (unfold is_u32; lia).
  split; [exact H6 | exact (reverse_bits_mirror_involution 6 H6)].
Defined.

Lemma mirror_low_bits_testbit n x j :
  (n <= 32)%nat -> 0 <= j ->
  Z.testbit (mirror_low_bits n x) j =
  (0 <=? 31 - j) && (31 - j <? Z.of_nat n) && Z.testbit x (31 - j).
Proof.
  intros Hn Hj. induction n as [|i IH]; cbn [mirror_low_bits].
  - rewrite Z.bits_0.
    destruct (Z.leb_spec 0 (31 - j)), (Z.ltb_spec (31 - j) (Z.of_nat 0));
      reflexivity || lia.
  - rewrite Z.lor_spec, IH by lia.
    assert (Hbit : Z.testbit (if Z.testbit x (Z.of_nat i)
                              then 2 ^ (31 - Z.of_nat i) else 0) j
                   = Z.testbit x (Z.of_nat i) && (31 - Z.of_nat i =? j)).
    { destruct (Z.testbit x (Z.of_nat i)).
      - now rewrite Z.pow2_bits_eqb by lia.
      - now rewrite Z.bits_0. }
    rewrite Hbit.
    destruct (Z.eqb_spec (31 - Z.of_nat i) j) as [Heq | Hne].
    + replace (31 - j) with (Z.of_nat i) by lia.
      destruct (Z.leb_spec 0 (Z.of_nat i)); [|lia].
      destruct (Z.ltb_spec (Z.of_nat i) (Z.of_nat (S i))); [|lia].
      destruct (Z.ltb_spec (Z.of_nat i) (Z.of_nat i)); [lia|].
      cbn. now rewrite andb_true_r, orb_false_r.
    + rewrite andb_false_r, orb_false_l.
      destruct (Z.leb_spec 0 (31 - j)); [|reflexivity].
      destruct (Z.ltb_spec (31 - j) (Z.of_nat i)),
               (Z.ltb_spec (31 - j) (Z.of_nat (S i))); reflexivity || lia.
Qed.

(** The five swap rounds compute the mirrored value. *)
Lemma reverse_bits_mirrored x : reverse_bits x = mirrored_32 x.
Proof.
  apply Z.bits_inj'. intros j Hj. unfold mirrored_32.
  rewrite mirror_low_bits_testbit by lia.
  destruct (Z.lt_ge_cases j 32) as [Hlt | Hge].
  - rewrite reverse_bits_testbit by lia.
    destruct (Z.leb_spec 0 (31 - j)); [|lia].
    destruct (Z.ltb_spec (31 - j) (Z.of_nat 32)); [reflexivity | lia].
  - rewrite (is_u32_testbit_high _ j (reverse_bits_range x) Hge).
    destruct (Z.leb_spec 0 (31 - j)); [lia | reflexivity].
Qed.

(** C3: the level the interpreter computes for two distinct 32-bit
    identifiers, from [reverse_bits] of each and [get_level], is the integer
    binary logarithm of the exclusive or of the two identifiers read in the
    opposite bit order; the values [reverse_bits] hands to [get_level] are
    these mirrored identifiers. *)
Theorem divergence_level_is_log2_of_mirrored_xor (id_a id_b : Z) :
  is_u32 id_a -> is_u32 id_b -> id_a <> id_b ->
  reverse_bits id_a = mirrored_32 id_a
  /\ reverse_bits id_b = mirrored_32 id_b
  /\ get_level (reverse_bits id_a) (reverse_bits id_b)
     = Some (Z.log2 (Z.lxor (mirrored_32 id_a) (mirrored_32 id_b))).
Proof.
  intros Ha Hb Hne.
  split; [apply reverse_bits_mirrored | split; [apply reverse_bits_mirrored|]].
  rewrite <- !reverse_bits_mirrored.
  apply get_level_log2; try apply reverse_bits_range.
  intros Heq. apply Hne. now apply reverse_bits_inj.
Qed.

Lemma divergence_level_is_log2_of_mirrored_xor_witness :
  reverse_bits 5 = mirrored_32 5
  /\ reverse_bits 12 = mirrored_32 12
  /\ get_level (reverse_bits 5) (reverse_bits 12)
     = Some (Z.log2 (Z.lxor (mirrored_32 5) (mirrored_32 12))).
Proof.
  assert (H5 : is_u32 5) by (unfold is_u32; lia).
  assert (H12 : is_u32 12) by (unfold is_u32; lia).
  assert (Hne : 5 <> 12) by lia.
  exact (divergence_level_is_log2_of_mirrored_xor 5 12 H5 H12 Hne).
Defined.

Example mirrored_32_of_5 : mirrored_32 5 = 0xA0000000.
Proof. reflexivity. Qed.

Example level_of_5_and_12 :
  Z.log2 (Z.lxor (mirrored_32 5) (mirrored_32 12)) = 31.
Proof. reflexivity. Qed.

(** Identifiers that differ in split bit [d] alone diverge at level
    [31 - d]. *)
Lemma get_level_single_bit a b d :
  is_u32 a -> is_u32 b -> 0 <= d < 32 -> Z.lxor a b = 2 ^ d ->
  get_level (reverse_bits a) (reverse_bits b) = Some (31 - d).
Proof.
  intros Ha Hb Hd Hx.
  assert (Hne : a <> b).
  { intros ->. rewrite Z.lxor_nilpotent in Hx.
    assert (0 < 2 ^ d) by (apply Z.pow_pos_nonneg; lia). lia. }
  rewrite get_level_log2; try apply reverse_bits_range.
  - rewrite reverse_bits_lxor, Hx, reverse_bits_pow2 by assumption.
    rewrite Z.log2_pow2 by lia. reflexivity.
  - intros Heq. apply Hne. now apply reverse_bits_inj.
Qed.

(** C4, as stated, fails: identifiers 0 and 1 differ in bit 0 alone, and
    their level is 31. *)
Lemma first_split_level_is_not_0 :
  is_u32 0 /\ is_u32 1 /\ Z.lxor 0 1 = 1 /\
  get_level (reverse_bits 0) (reverse_bits 1) = Some 31 /\
  get_level (reverse_bits 0) (reverse_bits 1) <> Some 0.
Proof.
  assert (H0 : is_u32 0) by (unfold is_u32; lia).
  assert (H1 : is_u32 1) by (unfold is_u32; lia).
  assert (Hl : get_level (reverse_bits 0) (reverse_bits 1) = Some 31).
  { apply (get_level_single_bit 0 1 0 H0 H1); [lia | reflexivity]. }
  repeat split; try lia; try reflexivity; [exact Hl | rewrite Hl; discriminate].
Qed.

(** C4, amended: for two 32-bit identifiers that differ in bit 0 alone, the
    level is 31. *)
Theorem first_split_level_31 (id_a id_b : Z) :
  is_u32 id_a -> is_u32 id_b -> Z.lxor id_a id_b = 1 ->
  get_level (reverse_bits id_a) (reverse_bits id_b) = Some 31.
Proof.
  intros Ha Hb Hx.
  apply (get_level_single_bit id_a id_b 0 Ha Hb); [lia | exact Hx].
Qed.

Lemma first_split_level_31_witness :
  is_u32 6 /\ is_u32 7 /\ Z.lxor 6 7 = 1 /\
  get_level (reverse_bits 6) (reverse_bits 7) = Some 31.
Proof.
  assert (H6 : is_u32 6) by (unfold is_u32; lia).
  assert (H7 : is_u32 7) by (unfold is_u32; lia).
  assert (Hx : Z.lxor 6 7 = 1) by reflexivity.
  repeat split; try lia.
  exact (first_split_level_31 6 7 H6 H7 Hx).
Defined.

(** ** The boundary loop *)

Lemma push_back_at_length level c bv bv' :
  push_back_at level c bv = Some bv' -> length bv' = length bv.
Proof.
  unfold push_back_at. destruct (bv !! Z.to_nat level); [|discriminate].
  intros [= <-]. apply length_insert.
Qed.

Lemma push_back_at_in_range level c bv :
  0 <= level < Z.of_nat (length bv) -> is_Some (push_back_at level c bv).
Proof.
  intros Hl. unfold push_back_at.
  destruct (bv !! Z.to_nat level) eqn:Hb; [now eexists|].
  apply lookup_ge_None in Hb. lia.
Qed.

(** An arc between two nodes in different cells files both endpoints in the
    bucket of its level. *)
Lemma visit_edge_boundary ids graph nid target id_s id_t c_s c_t bv :
  is_u32 id_s -> is_u32 id_t -> id_s <> id_t ->
  ids !! Z.to_nat target = Some id_t ->
  Node graph nid = Some c_s -> Node graph target = Some c_t ->
  visit_edge ids graph nid (reverse_bits id_s) bv target =
  let level := Z.log2 (Z.lxor (reverse_bits id_s) (reverse_bits id_t)) in
  match push_back_at level c_s bv with
  | Some bv' => push_back_at level c_t bv'
  | None => None
  end.
Proof.
  intros Hs Ht Hne Hid Hcs Hct. unfold visit_edge. rewrite Hid.
  destruct (Z.eqb_spec (reverse_bits id_s) (reverse_bits id_t)) as [Heq | _].
  - exfalso. apply Hne. now apply reverse_bits_inj.
  - cbn [negb]. rewrite get_level_log2; try apply reverse_bits_range.
    + now rewrite Hcs, Hct.
    + intros Heq. apply Hne. now apply reverse_bits_inj.
Qed.

Lemma visit_edge_same_id ids graph nid id bv edge_target :
  ids !! Z.to_nat edge_target = Some id ->
  visit_edge ids graph nid (reverse_bits id) bv edge_target = Some bv.
Proof.
  intros Ht. unfold visit_edge. rewrite Ht. now rewrite Z.eqb_refl.
Qed.

(** C5: an arc whose two endpoints carry the same identifier is interior:
    no level is computed for it and no bucket of [border_vertices] receives
    anything. *)
Theorem equal_ids_interior_arc (ids : list Z) (graph : BisectionGraph)
    (nid edge_target id_s id_t : Z) (bv : BorderVertices) :
  ids !! Z.to_nat nid = Some id_s ->
  ids !! Z.to_nat edge_target = Some id_t ->
  id_s = id_t ->
  visit_edge ids graph nid (reverse_bits id_s) bv edge_target = Some bv.
Proof.
  intros _ Ht ->. now apply visit_edge_same_id.
Qed.

Lemma equal_ids_interior_arc_witness :
  visit_edge [5; 5; 9] path_graph 0 (reverse_bits 5) (replicate 33 []) 1
  = Some (replicate 33 []).
Proof.
  exact (equal_ids_interior_arc [5; 5; 9] path_graph 0 1 5 5 (replicate 33 [])
           eq_refl eq_refl eq_refl).
Defined.

Lemma fold_option_unchanged {A B} (f : A -> B -> option A) (a : A) (l : list B) :
  (forall b, b ∈ l -> f a b = Some a) -> fold_option f a l = Some a.
Proof.
  induction l as [|b l IH]; intros Hf; cbn; [reflexivity|].
  rewrite Hf by apply list_elem_of_here.
  apply IH. intros b' Hb'. apply Hf. now apply list_elem_of_further.
Qed.

(** When no arc crosses a cell border, every bucket stays empty. *)
Lemma collect_border_vertices_interior graph ids :
  Z.of_nat (length ids) = NumberOfNodes graph ->
  (forall nid t, 0 <= nid < NumberOfNodes graph -> t ∈ Edges graph nid ->
     is_Some (ids !! Z.to_nat t) /\ ids !! Z.to_nat t = ids !! Z.to_nat nid) ->
  collect_border_vertices graph ids = Some (replicate 33 []).
Proof.
  intros Hlen Harcs. unfold collect_border_vertices.
  apply fold_option_unchanged. intros nid Hnid.
  apply list_elem_of_lookup in Hnid as [i Hi].
  apply lookup_seqZ in Hi as [-> Hi].
  unfold visit_node.
  destruct (ids !! Z.to_nat (0 + Z.of_nat i)) as [id|] eqn:Hid.
  - apply fold_option_unchanged. intros t Ht.
    destruct (Harcs (0 + Z.of_nat i) t) as [_ Heq]; [lia | exact Ht |].
    apply visit_edge_same_id. now rewrite Heq.
  - apply lookup_ge_None in Hid. lia.
Qed.

(** ** Bytes and little-endian images *)

Lemma byte_to_Z_of_Z z : byte_to_Z (byte_of_Z z) = z mod 256.
Proof.
  unfold byte_to_Z, byte_of_Z.
  assert (Hm : 0 <= z mod 256 < 256) by (apply Z.mod_pos_bound; lia).
  destruct (Byte.of_N (Z.to_N (z mod 256))) as [b|] eqn:Hb; cbn.
  - apply Byte.to_of_N in Hb. rewrite Hb. apply Z2N.id. lia.
  - apply Byte.of_N_None_iff in Hb. lia.
Qed.

Lemma length_le_encode n z : length (le_encode n z) = n.
Proof. revert z. induction n as [|n IH]; intros z; cbn; [|rewrite IH]; reflexivity. Qed.

Lemma le_decode_encode n z :
  le_decode (le_encode n z) = z mod 2 ^ (8 * Z.of_nat n).
Proof.
  revert z. induction n as [|n IH]; intros z.
  - cbn. now rewrite Z.mod_1_r.
  - cbn [le_encode le_decode]. rewrite byte_to_Z_of_Z, IH.
    replace (2 ^ (8 * Z.of_nat (S n))) with (256 * 2 ^ (8 * Z.of_nat n)).
    + rewrite Z.rem_mul_r; [reflexivity | lia |].
      apply Z.pow_pos_nonneg; lia.
    + replace (8 * Z.of_nat (S n)) with (8 + 8 * Z.of_nat n) by lia.
      rewrite Z.pow_add_r by lia. reflexivity.
Qed.

Lemma le_decode_nonneg bs : 0 <= le_decode bs.
Proof.
  induction bs as [|b bs IH]; cbn [le_decode]; [lia|].
  unfold byte_to_Z. lia.
Qed.

Lemma le_decode_encode_u32 z : is_u32 z -> le_decode (le_encode 4 z) = z.
Proof. intros Hz. rewrite le_decode_encode. now apply Z.mod_small. Qed.

Lemma le_decode_encode_u64 z : is_u64 z -> le_decode (le_encode 8 z) = z.
Proof. intros Hz. rewrite le_decode_encode. now apply Z.mod_small. Qed.

Lemma le_decode_encode_i32 z : is_i32 z -> to_int32 (le_decode (le_encode 4 z)) = z.
Proof.
  intros Hz. rewrite le_decode_encode. unfold to_int32, is_i32 in *.
  change (2 ^ (8 * Z.of_nat 4)) with (2 ^ 32).
  destruct (Z_lt_ge_dec z 0) as [Hneg | Hpos].
  - replace (z mod 2 ^ 32) with (z + 2 ^ 32).
    + destruct (Z.ltb_spec (z + 2 ^ 32) (2 ^ 31)); lia.
    + apply (Z.mod_unique _ _ (-1)); lia.
  - rewrite Z.mod_small by lia.
    destruct (Z.ltb_spec z (2 ^ 31)); lia.
Qed.

(** ** The reader *)

Lemma ReadBytes_app (a s : list byte) :
  ReadBytes (length a) (a ++ s) = inr (a, s).
Proof.
  unfold ReadBytes. rewrite length_app.
  destruct (Nat.leb_spec (length a) (length a + length s)) as [_ | Hlt]; [|lia].
  now rewrite take_app_length, drop_app_length.
Qed.

Lemma ReadBytes_app' n (a s : list byte) :
  length a = n -> ReadBytes n (a ++ s) = inr (a, s).
Proof. intros <-. apply ReadBytes_app. Qed.

Lemma ReadBytes_inr n s a s' :
  ReadBytes n s = inr (a, s') ->
  (n <= length s)%nat /\ a = take n s /\ s' = drop n s.
Proof.
  unfold ReadBytes. destruct (Nat.leb_spec n (length s)); [|discriminate].
  intros [= <- <-]. auto.
Qed.

Lemma ReadOne_u32_encode z s :
  is_u32 z -> ReadOne_u32 (le_encode 4 z ++ s) = inr (z, s).
Proof.
  intros Hz. unfold ReadOne_u32, io_bind, io_ret.
  rewrite ReadBytes_app' by apply length_le_encode.
  now rewrite le_decode_encode_u32.
Qed.

Lemma ReadElementCount64_encode z s :
  is_u64 z -> ReadElementCount64 (le_encode 8 z ++ s) = inr (z, s).
Proof.
  intros Hz. unfold ReadElementCount64, io_bind, io_ret.
  rewrite ReadBytes_app' by apply length_le_encode.
  now rewrite le_decode_encode_u64.
Qed.

Lemma ReadElementCount64_inr s n s' :
  ReadElementCount64 s = inr (n, s') ->
  (8 <= length s)%nat /\ n = le_decode (take 8 s) /\ s' = drop 8 s.
Proof.
  unfold ReadElementCount64, io_bind, io_ret.
  destruct (ReadBytes 8 s) as [e | [a s'']] eqn:Hr; [discriminate|].
  apply ReadBytes_inr in Hr as (Hlen & -> & ->).
  intros [= <- <-]. auto.
Qed.

Section Reader.
Context `{Environment}.

Lemma open_reader_accepts (fp body : list byte) :
  length fp = fingerprint_size -> fingerprint_valid fp = true ->
  open_reader (fp ++ body) = inr body.
Proof.
  intros Hlen Hok. unfold open_reader.
  rewrite ReadBytes_app' by exact Hlen. now rewrite Hok.
Qed.

Lemma open_reader_inr file s :
  open_reader file = inr s ->
  (fingerprint_size <= length file)%nat
  /\ fingerprint_valid (take fingerprint_size file) = true
  /\ s = drop fingerprint_size file.
Proof.
  unfold open_reader.
  destruct (ReadBytes fingerprint_size file) as [e | [a s']] eqn:Hr;
    [discriminate|].
  apply ReadBytes_inr in Hr as (Hlen & -> & ->).
  destruct (fingerprint_valid _) eqn:Hv; [|discriminate].
  intros [= <-]. auto.
Qed.
End Reader.

(** ** The mapping tables *)

Lemma lookup_unordered_map_insert k' x (m : gmap Z NodeBasedNodes) k :
  unordered_map_insert k' x m !! k =
  match m !! k with
  | Some y => Some y
  | None => if decide (k' = k) then Some x else None
  end.
Proof.
  unfold unordered_map_insert.
  destruct (m !! k') as [y'|] eqn:Hk'.
  - destruct (m !! k) as [y|] eqn:Hk; [reflexivity|].
    destruct (decide (k' = k)) as [-> | _]; [congruence | reflexivity].
  - destruct (decide (k' = k)) as [-> | Hne].
    + now rewrite lookup_insert_eq, Hk'.
    + rewrite lookup_insert_ne by exact Hne. now destruct (m !! k).
Qed.

Lemma heads_insert_records rs m k :
  heads (foldl insert_record m rs) !! k =
  match heads m !! k with
  | Some x => Some x
  | None => first_nodes rec_head k rs
  end.
Proof.
  revert m. induction rs as [|r rs IH]; intros m; cbn [foldl].
  - now destruct (heads m !! k).
  - rewrite IH. cbn [insert_record heads].
    rewrite lookup_unordered_map_insert.
    destruct (heads m !! k); [reflexivity|].
    unfold first_nodes. cbn [List.find].
    destruct (decide (rec_head r = k)) as [Heq | Hne].
    + apply Z.eqb_eq in Heq. now rewrite Heq.
    + apply Z.eqb_neq in Hne. now rewrite Hne.
Qed.

Lemma tails_insert_records rs m k :
  tails (foldl insert_record m rs) !! k =
  match tails m !! k with
  | Some x => Some x
  | None => first_nodes rec_tail k rs
  end.
Proof.
  revert m. induction rs as [|r rs IH]; intros m; cbn [foldl].
  - now destruct (tails m !! k).
  - rewrite IH. cbn [insert_record tails].
    rewrite lookup_unordered_map_insert.
    destruct (tails m !! k); [reflexivity|].
    unfold first_nodes. cbn [List.find].
    destruct (decide (rec_tail r = k)) as [Heq | Hne].
    + apply Z.eqb_eq in Heq. now rewrite Heq.
    + apply Z.eqb_neq in Hne. now rewrite Hne.
Qed.

Lemma first_nodes_first_occurrence key rs i r :
  rs !! i = Some r ->
  (forall j r', (j < i)%nat -> rs !! j = Some r' -> key r' <> key r) ->
  first_nodes key (key r) rs = Some (rec_nodes r).
Proof.
  unfold first_nodes. revert i. induction rs as [|r0 rs IH]; intros i Hi Hfirst.
  - discriminate.
  - cbn [List.find]. destruct i as [|i].
    + injection Hi as ->. now rewrite Z.eqb_refl.
    + assert (Hne : key r0 <> key r) by (apply (Hfirst 0%nat); [lia | reflexivity]).
      apply Z.eqb_neq in Hne. rewrite Hne.
      apply (IH i); [exact Hi|].
      intros j r' Hj Hr'. apply (Hfirst (S j)); [lia | exact Hr'].
Qed.

Lemma first_nodes_absent key k rs :
  (forall r', r' ∈ rs -> key r' <> k) -> first_nodes key k rs = None.
Proof.
  unfold first_nodes. induction rs as [|r0 rs IH]; intros Habs; [reflexivity|].
  cbn [List.find].
  assert (Hne : key r0 <> k) by (apply Habs, list_elem_of_here).
  apply Z.eqb_neq in Hne. rewrite Hne.
  apply IH. intros r' Hr'. apply Habs. now apply list_elem_of_further.
Qed.

Lemma read_mappings_encode rs m s :
  Forall record_ok rs ->
  read_mappings (length rs) m (concat (map encode_record rs) ++ s)
  = inr (foldl insert_record m rs, s).
Proof.
  intros Hok. revert m. induction Hok as [|r rs (Hu & Hv & Hh & Ht) _ IH]; intros m.
  - reflexivity.
  - cbn [length read_mappings map concat foldl]. unfold encode_record.
    rewrite <- !app_assoc. unfold io_bind.
    rewrite !ReadOne_u32_encode by assumption.
    apply IH.
Qed.

Section Mapping.
Context `{Environment}.

Lemma load_mapping_file fp rs :
  length fp = fingerprint_size -> fingerprint_valid fp = true ->
  Forall record_ok rs -> Z.of_nat (length rs) < 2 ^ 64 ->
  LoadNodeBasedGraphToEdgeBasedGraphMapping (mapping_file fp rs)
  = inr (foldl insert_record empty_mapping rs).
Proof.
  intros Hlen Hfp Hok Hcount.
  unfold LoadNodeBasedGraphToEdgeBasedGraphMapping, mapping_file.
  rewrite open_reader_accepts by assumption.
  unfold NodeBasedGraphToEdgeBasedGraphMapping_read, io_bind.
  rewrite ReadElementCount64_encode by (unfold is_u64; lia).
  rewrite Nat2Z.id.
  rewrite <- (app_nil_r (concat _)).
  now rewrite read_mappings_encode.
Qed.

Lemma Lookup_heads m e nodes :
  heads m !! e = Some nodes -> Lookup m e = Returned nodes.
Proof. intros Hh. unfold Lookup. now rewrite Hh. Qed.

Lemma Lookup_tails m e nodes :
  heads m !! e = None -> tails m !! e = Some nodes ->
  Lookup m e = Returned nodes.
Proof. intros Hh Ht. unfold Lookup. now rewrite Hh, Ht. Qed.

Lemma Lookup_miss m e :
  heads m !! e = None -> tails m !! e = None ->
  Lookup m e =
  if assertions_enabled then AssertionFailed
  else Returned {| u := SPECIAL_NODEID; v := SPECIAL_NODEID |}.
Proof. intros Hh Ht. unfold Lookup. now rewrite Hh, Ht. Qed.
End Mapping.

(** C1, as stated, fails: in a release build, after a mapping file with
    count 0 has been loaded, [Lookup] returns the sentinel pair. *)
Lemma lookup_miss_returns_sentinel :
  @LoadNodeBasedGraphToEdgeBasedGraphMapping release_build
    (mapping_file sample_fingerprint [])
  = inr empty_mapping
  /\ heads empty_mapping !! 7 = None
  /\ tails empty_mapping !! 7 = None
  /\ @Lookup release_build empty_mapping 7
     = Returned {| u := 4294967295; v := 4294967295 |}.
Proof. repeat split; reflexivity. Qed.

(** C1, amended: a mapping file with count 0 yields two empty tables, and
    for an [EdgeID] that is a key of neither table [Lookup] reaches
    [BOOST_ASSERT(false)]: where assertions are compiled in the process stops
    there, otherwise the call returns the pair
    [(SPECIAL_NODEID, SPECIAL_NODEID)]. *)
Theorem lookup_miss_asserts_or_sentinel `{Environment}
    (fp : list byte) (m : NodeBasedGraphToEdgeBasedGraphMapping) (e : Z) :
  length fp = fingerprint_size -> fingerprint_valid fp = true ->
  heads m !! e = None -> tails m !! e = None ->
  LoadNodeBasedGraphToEdgeBasedGraphMapping (mapping_file fp [])
  = inr {| heads := ∅; tails := ∅ |}
  /\ (forall e', Lookup {| heads := ∅; tails := ∅ |} e' =
        if assertions_enabled then AssertionFailed
        else Returned {| u := SPECIAL_NODEID; v := SPECIAL_NODEID |})
  /\ Lookup m e =
     if assertions_enabled then AssertionFailed
     else Returned {| u := SPECIAL_NODEID; v := SPECIAL_NODEID |}.
Proof.
  intros Hlen Hfp Hh Ht. split; [|split].
  - apply (load_mapping_file fp []); [assumption | assumption | constructor | cbn; lia].
  - intros e'. apply Lookup_miss; apply lookup_empty.
  - now apply Lookup_miss.
Qed.

Lemma lookup_miss_asserts_or_sentinel_witness :
  @LoadNodeBasedGraphToEdgeBasedGraphMapping release_build
    (mapping_file sample_fingerprint [])
  = inr {| heads := ∅; tails := ∅ |}
  /\ (forall e', @Lookup release_build {| heads := ∅; tails := ∅ |} e'
        = Returned {| u := 4294967295; v := 4294967295 |})
  /\ @Lookup release_build (foldl insert_record empty_mapping sample_records) 14
     = Returned {| u := 4294967295; v := 4294967295 |}.
Proof.
  exact (@lookup_miss_asserts_or_sentinel release_build sample_fingerprint
           (foldl insert_record empty_mapping sample_records) 14
           eq_refl eq_refl eq_refl eq_refl).
Defined.

(** C2, as stated, fails: of two chunks with the same head the first one
    wins, and a tail that is also a head is answered from the heads table. *)
Lemma lookup_roundtrip_fails_on_shared_keys :
  exists m,
    @LoadNodeBasedGraphToEdgeBasedGraphMapping release_build
      (mapping_file sample_fingerprint sample_records) = inr m
    /\ sample_records !! 1%nat
       = Some {| rec_u := 3; rec_v := 4; rec_head := 10; rec_tail := 12 |}
    /\ @Lookup release_build m 10 = Returned {| u := 1; v := 2 |}
    /\ @Lookup release_build m 10 <> Returned {| u := 3; v := 4 |}
    /\ sample_records !! 2%nat
       = Some {| rec_u := 5; rec_v := 6; rec_head := 13; rec_tail := 10 |}
    /\ @Lookup release_build m 10 <> Returned {| u := 5; v := 6 |}.
Proof.
  eexists. split; [vm_compute; reflexivity|].
  repeat split; try reflexivity; vm_compute; discriminate.
Qed.

(** C2, amended: loading a well-formed mapping file succeeds, and for the
    chunk [(u, v, head, tail)] at any position, [Lookup(head)] returns
    [(u, v)] when no earlier chunk has the same head, and [Lookup(tail)]
    returns [(u, v)] when no chunk has this tail as its head and no earlier
    chunk has the same tail. *)
Theorem lookup_roundtrip_first_occurrence `{Environment}
    (fp : list byte) (rs : list MappingRecord) :
  length fp = fingerprint_size -> fingerprint_valid fp = true ->
  Forall record_ok rs -> Z.of_nat (length rs) < 2 ^ 64 ->
  exists m,
    LoadNodeBasedGraphToEdgeBasedGraphMapping (mapping_file fp rs) = inr m
    /\ forall i r, rs !! i = Some r ->
         ((forall j r', (j < i)%nat -> rs !! j = Some r' ->
             rec_head r' <> rec_head r) ->
          Lookup m (rec_head r) = Returned {| u := rec_u r; v := rec_v r |})
         /\
         ((forall r', r' ∈ rs -> rec_head r' <> rec_tail r) ->
          (forall j r', (j < i)%nat -> rs !! j = Some r' ->
             rec_tail r' <> rec_tail r) ->
          Lookup m (rec_tail r) = Returned {| u := rec_u r; v := rec_v r |}).
Proof.
  intros Hlen Hfp Hok Hcount.
  exists (foldl insert_record empty_mapping rs). split.
  - now apply load_mapping_file.
  - intros i r Hi. split.
    + intros Hfirst. apply Lookup_heads.
      rewrite heads_insert_records. cbn [empty_mapping heads].
      rewrite lookup_empty.
      exact (first_nodes_first_occurrence rec_head rs i r Hi Hfirst).
    + intros Hnohead Hfirst. apply Lookup_tails.
      * rewrite heads_insert_records. cbn [empty_mapping heads].
        rewrite lookup_empty. now apply first_nodes_absent.
      * rewrite tails_insert_records. cbn [empty_mapping tails].
        rewrite lookup_empty.
        exact (first_nodes_first_occurrence rec_tail rs i r Hi Hfirst).
Qed.

Lemma distinct_records_ok : Forall record_ok distinct_records.
Proof. repeat constructor; cbn; lia. Qed.

Lemma lookup_roundtrip_first_occurrence_witness :
  exists m,
    @LoadNodeBasedGraphToEdgeBasedGraphMapping release_build
      (mapping_file sample_fingerprint distinct_records) = inr m
    /\ forall i r, distinct_records !! i = Some r ->
         ((forall j r', (j < i)%nat -> distinct_records !! j = Some r' ->
             rec_head r' <> rec_head r) ->
          @Lookup release_build m (rec_head r)
          = Returned {| u := rec_u r; v := rec_v r |})
         /\
         ((forall r', r' ∈ distinct_records -> rec_head r' <> rec_tail r) ->
          (forall j r', (j < i)%nat -> distinct_records !! j = Some r' ->
             rec_tail r' <> rec_tail r) ->
          @Lookup release_build m (rec_tail r)
          = Returned {| u := rec_u r; v := rec_v r |}).
Proof.
  apply (@lookup_roundtrip_first_occurrence release_build
           sample_fingerprint distinct_records).
  - reflexivity.
  - reflexivity.
  - exact distinct_records_ok.
  - cbn. lia.
Defined.

(** C8: for an [EdgeID] that is a key of both tables, [Lookup] answers from
    the heads table. *)
Theorem lookup_prefers_heads `{Environment}
    (m : NodeBasedGraphToEdgeBasedGraphMapping) (e : Z)
    (from_heads from_tails : NodeBasedNodes) :
  heads m !! e = Some from_heads ->
  tails m !! e = Some from_tails ->
  Lookup m e = Returned from_heads.
Proof. intros Hh _. now apply Lookup_heads. Qed.

Lemma lookup_prefers_heads_witness :
  @Lookup release_build (foldl insert_record empty_mapping sample_records) 10
  = Returned {| u := 1; v := 2 |}.
Proof.
  exact (@lookup_prefers_heads release_build
           (foldl insert_record empty_mapping sample_records) 10
           {| u := 1; v := 2 |} {| u := 5; v := 6 |} eq_refl eq_refl).
Defined.

(** ** The graph loader *)

Lemma length_resize {T} n (d : T) : length (resize n d []) = n.
Proof. unfold resize. rewrite take_nil, length_app, length_replicate. cbn. lia. Qed.

Lemma decode_edge_encode e : edge_ok e -> decode_edge (encode_edge e) = e.
Proof.
  intros [Hs Ht]. destruct e as [s t]. unfold decode_edge, encode_edge.
  cbn [source target] in *.
  rewrite take_app_length', drop_app_length' by (symmetry; apply length_le_encode).
  now rewrite !le_decode_encode_u32.
Qed.

Lemma decode_coordinate_encode c :
  coordinate_ok c -> decode_coordinate (encode_coordinate c) = c.
Proof.
  intros [Hlon Hlat]. destruct c as [x y].
  unfold decode_coordinate, encode_coordinate. cbn [lon lat] in *.
  rewrite take_app_length', drop_app_length' by (symmetry; apply length_le_encode).
  now rewrite !le_decode_encode_i32.
Qed.

Lemma length_encode_edge e : length (encode_edge e) = 8%nat.
Proof. unfold encode_edge. now rewrite length_app, !length_le_encode. Qed.

Lemma length_encode_coordinate c : length (encode_coordinate c) = 8%nat.
Proof. unfold encode_coordinate. now rewrite length_app, !length_le_encode. Qed.

Section Records.
Context {T : Type} (size : nat) (decode : list byte -> T)
        (encode : T -> list byte) (ok : T -> Prop).
Hypothesis length_encode : forall x, length (encode x) = size.
Hypothesis decode_encode : forall x, ok x -> decode (encode x) = x.

Lemma length_concat_encode xs :
  length (concat (map encode xs)) = (length xs * size)%nat.
Proof.
  induction xs as [|x xs IH]; cbn; [reflexivity|].
  now rewrite length_app, length_encode, IH.
Qed.

Lemma decode_elements_encode xs :
  Forall ok xs ->
  decode_elements size decode (length xs) (concat (map encode xs)) = xs.
Proof.
  induction 1 as [|x xs Hx _ IH]; cbn; [reflexivity|].
  rewrite take_app_length', drop_app_length' by (symmetry; apply length_encode).
  now rewrite decode_encode, IH.
Qed.

Lemma ReadInto_encode (v : list T) xs s :
  length v = length xs -> Forall ok xs ->
  ReadInto size decode v (concat (map encode xs) ++ s) = inr (xs, s).
Proof.
  intros Hlen Hok. unfold ReadInto, io_bind, io_ret.
  rewrite ReadBytes_app' by (rewrite Hlen; apply length_concat_encode).
  now rewrite Hlen, decode_elements_encode.
Qed.
End Records.

Lemma length_decode_elements {T} size (decode : list byte -> T) n bs :
  length (decode_elements size decode n bs) = n.
Proof.
  revert bs. induction n as [|n IH]; intros bs; cbn; [|rewrite IH]; reflexivity.
Qed.

Lemma ReadInto_inr {T} size (decode : list byte -> T) v s v' s' :
  ReadInto size decode v s = inr (v', s') ->
  (length v * size <= length s)%nat
  /\ length v' = length v
  /\ s' = drop (length v * size) s.
Proof.
  unfold ReadInto, io_bind, io_ret.
  destruct (ReadBytes _ s) as [e | [a s'']] eqn:Hr; [discriminate|].
  apply ReadBytes_inr in Hr as (Hlen & -> & ->).
  intros [= <- <-]. rewrite length_decode_elements. auto.
Qed.

(** What a successful read of the two sections implies for the stream. *)
Lemma CompressedNodeBasedGraph_read_inr s graph s' :
  CompressedNodeBasedGraph_read s = inr (graph, s') ->
  (16 <= length s)%nat
  /\ Z.of_nat (length (edges graph)) = le_decode (take 8 s)
  /\ Z.of_nat (length (coordinates graph)) = le_decode (take 8 (drop 8 s))
  /\ 16 + 8 * le_decode (take 8 s) + 8 * le_decode (take 8 (drop 8 s))
     <= Z.of_nat (length s).
Proof.
  unfold CompressedNodeBasedGraph_read, io_bind at 1.
  destruct (ReadElementCount64 s) as [e | [ne s1]] eqn:H1; [discriminate|].
  apply ReadElementCount64_inr in H1 as (Hl1 & -> & ->).
  unfold io_bind at 1.
  destruct (ReadElementCount64 (drop 8 s)) as [e | [nn s2]] eqn:H2; [discriminate|].
  apply ReadElementCount64_inr in H2 as (Hl2 & -> & ->).
  rewrite length_drop in Hl2.
  unfold io_bind at 1.
  destruct (ReadInto 8 decode_edge _ _) as [e | [es s3]] eqn:H3; [discriminate|].
  apply ReadInto_inr in H3 as (Hl3 & Hes & ->).
  unfold io_bind at 1.
  destruct (ReadInto 8 decode_coordinate _ _) as [e | [cs s4]] eqn:H4; [discriminate|].
  apply ReadInto_inr in H4 as (Hl4 & Hcs & ->).
  unfold io_ret. intros [= <- <-]. cbn [edges coordinates].
  repeat match goal with
         | Hx : context [length (resize _ _ [])] |- _ => rewrite length_resize in Hx
         | Hx : context [length (drop _ _)] |- _ => rewrite length_drop in Hx
         end.
  pose proof (le_decode_nonneg (take 8 s)).
  pose proof (le_decode_nonneg (take 8 (drop 8 s))).
  repeat split; lia.
Qed.

(** C6: a well-formed graph file is loaded into exactly the edges and the
    coordinates it holds, as many as it declares and in file order; the
    endpoints of the edges are not compared with the number of nodes. *)
Theorem load_graph_file_in_order `{Environment} (fp : list byte)
    (es : list CompressedNodeBasedGraphEdge) (cs : list Coordinate) :
  length fp = fingerprint_size -> fingerprint_valid fp = true ->
  Forall edge_ok es -> Forall coordinate_ok cs ->
  Z.of_nat (length es) < 2 ^ 64 -> Z.of_nat (length cs) < 2 ^ 64 ->
  exists graph,
    LoadCompressedNodeBasedGraph (graph_file fp es cs) = inr graph
    /\ length (edges graph) = length es
    /\ length (coordinates graph) = length cs
    /\ edges graph = es
    /\ coordinates graph = cs.
Proof.
  intros Hlen Hfp Hes Hcs Hne Hnn.
  exists {| edges := es; coordinates := cs |}.
  split; [|repeat split; reflexivity].
  unfold LoadCompressedNodeBasedGraph, graph_file.
  rewrite open_reader_accepts by assumption.
  unfold CompressedNodeBasedGraph_read, io_bind.
  rewrite !ReadElementCount64_encode by (unfold is_u64; lia).
  rewrite (ReadInto_encode 8 decode_edge encode_edge edge_ok
             length_encode_edge decode_edge_encode);
    [| rewrite length_resize; apply Nat2Z.id | exact Hes].
  rewrite <- (app_nil_r (concat (map encode_coordinate cs))).
  rewrite (ReadInto_encode 8 decode_coordinate encode_coordinate coordinate_ok
             length_encode_coordinate decode_coordinate_encode);
    [| rewrite length_resize; apply Nat2Z.id | exact Hcs].
  reflexivity.
Qed.

Lemma sample_edges_ok : Forall edge_ok sample_edges.
Proof. repeat constructor; cbn; lia. Qed.

Lemma sample_coordinates_ok : Forall coordinate_ok sample_coordinates.
Proof. repeat constructor; cbn; lia. Qed.

Lemma load_graph_file_in_order_witness :
  exists graph,
    @LoadCompressedNodeBasedGraph release_build
      (graph_file sample_fingerprint sample_edges sample_coordinates) = inr graph
    /\ length (edges graph) = length sample_edges
    /\ length (coordinates graph) = length sample_coordinates
    /\ edges graph = sample_edges
    /\ coordinates graph = sample_coordinates.
Proof.
  apply (@load_graph_file_in_order release_build sample_fingerprint
           sample_edges sample_coordinates).
  - reflexivity.
  - reflexivity.
  - exact sample_edges_ok.
  - exact sample_coordinates_ok.
  - cbn. lia.
  - cbn. lia.
Defined.

(** The loader does not look at the endpoints: the second sample edge points
    at node 7 of a graph with two nodes. *)
Example load_graph_keeps_out_of_range_endpoint :
  @LoadCompressedNodeBasedGraph release_build
    (graph_file sample_fingerprint sample_edges sample_coordinates)
  = inr {| edges := [ {| source := 0; target := 1 |};
                      {| source := 1; target := 7 |} ];
           coordinates := sample_coordinates |}.
Proof. vm_compute. reflexivity. Qed.


(** *** The constructor with its allocations *)









Example load_graph_corrupted_fingerprint :
  @LoadCompressedNodeBasedGraph release_build
    (graph_file corrupted_fingerprint sample_edges sample_coordinates)
  = inl FingerprintMismatch.
Proof. reflexivity. Qed.

Example load_graph_truncated :
  @truncated_graph_file release_build
    (take 50 (graph_file sample_fingerprint sample_edges sample_coordinates))
  /\ @LoadCompressedNodeBasedGraph release_build
       (take 50 (graph_file sample_fingerprint sample_edges sample_coordinates))
     = inl UnexpectedEndOfFile.
Proof. split; [vm_compute; reflexivity | reflexivity]. Qed.

(** ** The identifiers of the engine *)

Lemma length_assign_bit depth ids node :
  length (assign_bit depth ids node) = length ids.
Proof. unfold assign_bit. apply length_alter. Qed.

Lemma length_foldl_assign_bit depth nodes ids :
  length (foldl (assign_bit depth) ids nodes) = length ids.
Proof.
  revert ids. induction nodes as [|n nodes IH]; intros ids; cbn [foldl];
    [reflexivity|].
  now rewrite IH, length_assign_bit.
Qed.

(** The recursion writes bits into the identifiers it is given and never
    adds or drops one. *)
Lemma length_bisect `{CutSelection} fuel config graph depth subset ids ids' :
  bisect fuel config graph depth subset ids = inr ids' ->
  length ids' = length ids.
Proof.
  revert depth subset ids ids'.
  induction fuel as [|fuel IH]; intros depth subset ids ids'; cbn [bisect].
  - destruct (_ <=? _); [|discriminate]. now intros [= <-].
  - destruct (_ <=? _); [now intros [= <-]|].
    destruct (bisect fuel config graph (depth + 1) _ _) as [e | ids2] eqn:Hz;
      [discriminate|].
    intros Ho. apply IH in Ho. apply IH in Hz.
    now rewrite Ho, Hz, length_foldl_assign_bit.
Qed.

Lemma bisect_cell `{CutSelection} fuel config graph depth subset ids :
  Z.of_nat (length subset) <= maximum_cell_size config ->
  bisect fuel config graph depth subset ids = inr ids.
Proof.
  intros Hsz. apply Z.leb_le in Hsz.
  destruct fuel; cbn [bisect]; now rewrite Hsz.
Qed.

(** A graph whose node set is already a cell is partitioned without a
    split. *)
Lemma RecursiveBisection_new_single_cell `{CutSelection} config graph :
  valid_config config = true ->
  NumberOfNodes graph <= maximum_cell_size config ->
  RecursiveBisection_new config graph
  = inr {| bisection_ids := replicate (length (graph_nodes graph)) 0 |}.
Proof.
  intros Hv Hn. unfold RecursiveBisection_new. rewrite Hv.
  rewrite bisect_cell; [reflexivity|].
  rewrite length_seqZ. unfold NumberOfNodes in *. lia.
Qed.

Lemma RecursiveBisection_new_length `{CutSelection} config graph rb :
  RecursiveBisection_new config graph = inr rb ->
  length (bisection_ids rb) = length (graph_nodes graph).
Proof.
  unfold RecursiveBisection_new. intros Hnew.
  destruct (valid_config config); [|discriminate].
  remember 32%nat as fuel eqn:Hfuel. clear Hfuel.
  destruct (bisect fuel config graph 0 _ _) as [e | ids] eqn:Hb; [discriminate|].
  injection Hnew as <-. apply length_bisect in Hb.
  now rewrite length_replicate in Hb.
Qed.

(** C9: once the engine has been constructed, [BisectionIDs()] has one
    entry per node of the graph, so every [NodeID] below [NumberOfNodes()]
    indexes an identifier. *)
Theorem bisection_ids_index_aligned `{CutSelection}
    (config : PartitionConfig) (graph : BisectionGraph)
    (rb : RecursiveBisection) :
  RecursiveBisection_new config graph = inr rb ->
  Z.of_nat (length (BisectionIDs rb)) = NumberOfNodes graph
  /\ forall nid, 0 <= nid < NumberOfNodes graph ->
       is_Some (BisectionIDs rb !! Z.to_nat nid).
Proof.
  intros Hnew. apply RecursiveBisection_new_length in Hnew.
  unfold BisectionIDs, NumberOfNodes. split.
  - now rewrite Hnew.
  - intros nid Hnid. apply lookup_lt_is_Some_2. lia.
Qed.

Lemma bisection_ids_index_aligned_witness :
  @RecursiveBisection_new median_cut sample_config path_graph
  = inr {| bisection_ids := [0; 2; 1; 3] |}
  /\ Z.of_nat (length (BisectionIDs {| bisection_ids := [0; 2; 1; 3] |}))
     = NumberOfNodes path_graph
  /\ forall nid, 0 <= nid < NumberOfNodes path_graph ->
       is_Some (BisectionIDs {| bisection_ids := [0; 2; 1; 3] |} !! Z.to_nat nid).
Proof.
  assert (Hnew : @RecursiveBisection_new median_cut sample_config path_graph
                 = inr {| bisection_ids := [0; 2; 1; 3] |})
    by (vm_compute; reflexivity).
  split; [exact Hnew|].
  exact (@bisection_ids_index_aligned median_cut sample_config path_graph
           {| bisection_ids := [0; 2; 1; 3] |} Hnew).
Defined.

(** ** The boundary loop on the identifiers of a partition *)

Lemma fold_option_invariant {A B} (P : A -> Prop) (f : A -> B -> option A)
    (l : list B) (a : A) :
  (forall a0 b, b ∈ l -> P a0 -> exists a1, f a0 b = Some a1 /\ P a1) ->
  P a -> exists a', fold_option f a l = Some a' /\ P a'.
Proof.
  revert a. induction l as [|b l IH]; intros a Hstep Ha; cbn [fold_option].
  - eauto.
  - destruct (Hstep a b) as (a1 & -> & Ha1); [apply list_elem_of_here | exact Ha |].
    apply IH; [|exact Ha1].
    intros a0 b0 Hb0. apply Hstep. now apply list_elem_of_further.
Qed.

Lemma get_level_in_range lhs rhs :
  is_u32 lhs -> is_u32 rhs -> lhs <> rhs ->
  exists level, get_level lhs rhs = Some level /\ 0 <= level < 32.
Proof.
  intros Hl Hr Hne. exists (Z.log2 (Z.lxor lhs rhs)).
  split; [now apply get_level_log2|].
  pose proof (is_u32_lxor lhs rhs Hl Hr) as Hx. unfold is_u32 in Hx.
  assert (Z.lxor lhs rhs <> 0) by (rewrite Z.lxor_eq_0_iff; exact Hne).
  split; [apply Z.log2_nonneg|].
  apply Z.log2_lt_pow2; lia.
Qed.

Lemma visit_edge_defined ids graph nid source_id bv t :
  is_u32 source_id ->
  Z.of_nat (length ids) = NumberOfNodes graph ->
  0 <= nid < NumberOfNodes graph -> 0 <= t < NumberOfNodes graph ->
  length bv = 33%nat ->
  exists bv', visit_edge ids graph nid source_id bv t = Some bv'
              /\ length bv' = 33%nat.
Proof.
  intros Hs Hlen Hnid Ht Hbv. unfold visit_edge, NumberOfNodes, Node in *.
  destruct (ids !! Z.to_nat t) as [id|] eqn:Hid;
    [|apply lookup_ge_None in Hid; lia].
  destruct (Z.eqb_spec source_id (reverse_bits id)) as [_ | Hne]; cbn [negb];
    [eauto|].
  destruct (get_level_in_range source_id (reverse_bits id) Hs
              (reverse_bits_range id) Hne) as (level & -> & Hlevel).
  destruct (graph_nodes graph !! Z.to_nat nid) as [c_s|] eqn:Hcs;
    [|apply lookup_ge_None in Hcs; lia].
  destruct (graph_nodes graph !! Z.to_nat t) as [c_t|] eqn:Hct;
    [|apply lookup_ge_None in Hct; lia].
  destruct (push_back_at_in_range level c_s bv) as [bv1 H1]; [lia|].
  rewrite H1. pose proof (push_back_at_length _ _ _ _ H1) as Hl1.
  destruct (push_back_at_in_range level c_t bv1) as [bv2 H2]; [lia|].
  rewrite H2. pose proof (push_back_at_length _ _ _ _ H2) as Hl2.
  exists bv2. split; [reflexivity | lia].
Qed.

(** With one identifier per node and every arc ending at a node of the
    graph, the loop of [LogGeojson] makes no access out of range. *)
Lemma collect_border_vertices_defined graph ids :
  Z.of_nat (length ids) = NumberOfNodes graph ->
  (forall nid t, 0 <= nid < NumberOfNodes graph -> t ∈ Edges graph nid ->
     0 <= t < NumberOfNodes graph) ->
  exists bv, collect_border_vertices graph ids = Some bv
             /\ length bv = 33%nat.
Proof.
  intros Hlen Harcs. unfold collect_border_vertices.
  apply (fold_option_invariant (fun bv => length bv = 33%nat));
    [|apply length_replicate].
  intros bv nid Hnid Hbv.
  apply list_elem_of_lookup in Hnid as [i Hi].
  apply lookup_seqZ in Hi as [-> Hi].
  unfold visit_node.
  destruct (ids !! Z.to_nat (0 + Z.of_nat i)) as [id|] eqn:Hid;
    [|apply lookup_ge_None in Hid; lia].
  apply (fold_option_invariant (fun bv => length bv = 33%nat)); [|exact Hbv].
  intros bv0 t Ht Hbv0.
  apply visit_edge_defined; try assumption.
  - apply reverse_bits_range.
  - lia.
  - apply (Harcs (0 + Z.of_nat i)); [lia | exact Ht].
Qed.

(** The call [LogGeojson(path, recursive_bisection.BisectionIDs())] of
    [Partitioner::Run]: on the identifiers of the engine the loop is
    defined for every graph whose arcs end at nodes of the graph. *)
Corollary Run_border_vertices_defined `{CutSelection} config graph rb :
  RecursiveBisection_new config graph = inr rb ->
  (forall nid t, 0 <= nid < NumberOfNodes graph -> t ∈ Edges graph nid ->
     0 <= t < NumberOfNodes graph) ->
  exists bv, collect_border_vertices graph (BisectionIDs rb) = Some bv
             /\ length bv = 33%nat.
Proof.
  intros Hnew Harcs. apply collect_border_vertices_defined; [|exact Harcs].
  apply RecursiveBisection_new_length in Hnew.
  unfold BisectionIDs, NumberOfNodes. now rewrite Hnew.
Qed.

(** * Part III: further properties of the code *)

(** ** Levels and split bits *)

Lemma log2_top_bit y k :
  0 <= y -> 0 <= k -> Z.testbit y k = true ->
  (forall i, k < i -> Z.testbit y i = false) ->
  Z.log2 y = k.
Proof.
  intros Hy Hk Hbit Habove.
  assert (Hpos : 0 < y).
  { destruct (Z.eq_dec y 0) as [-> | ?]; [|lia].
    rewrite Z.bits_0 in Hbit. discriminate. }
  pose proof (Z.bit_log2 y Hpos) as Htop.
  destruct (Z.lt_trichotomy (Z.log2 y) k) as [Hlt | [Heq | Hgt]].
  - rewrite (Z.bits_above_log2 y k Hy Hlt) in Hbit. discriminate.
  - exact Heq.
  - rewrite (Habove _ Hgt) in Htop. discriminate.
Qed.

Lemma testbit_differs_neq a b d : Z.testbit a d <> Z.testbit b d -> a <> b.
Proof. intros Hd ->. now apply Hd. Qed.

(** X1: the level of two identifiers is 31 minus the position of the lowest
    bit in which they differ, that is, of the first split that separates
    them. *)
Theorem get_level_lowest_differing_bit (id_a id_b d : Z) :
  is_u32 id_a -> is_u32 id_b -> 0 <= d < 32 ->
  Z.testbit id_a d <> Z.testbit id_b d ->
  (forall i, 0 <= i < d -> Z.testbit id_a i = Z.testbit id_b i) ->
  get_level (reverse_bits id_a) (reverse_bits id_b) = Some (31 - d).
Proof.
  intros Ha Hb Hd Hdiff Hlow.
  pose proof (testbit_differs_neq _ _ _ Hdiff) as Hne.
  rewrite get_level_log2; try apply reverse_bits_range.
  2: { intros Heq. apply Hne. now apply reverse_bits_inj. }
  rewrite reverse_bits_lxor by assumption. f_equal.
  apply log2_top_bit.
  - pose proof (reverse_bits_range (Z.lxor id_a id_b)) as Hr.
    unfold is_u32 in Hr. lia.
  - lia.
  - rewrite reverse_bits_testbit by lia.
    replace (31 - (31 - d)) with d by lia.
    rewrite Z.lxor_spec.
    destruct (Z.testbit id_a d), (Z.testbit id_b d); try reflexivity;
      now contradiction Hdiff.
  - intros i Hi. destruct (Z.lt_ge_cases i 32) as [Hlt | Hge].
    + rewrite reverse_bits_testbit by lia.
      rewrite Z.lxor_spec, (Hlow (31 - i)) by lia. apply xorb_nilpotent.
    + apply is_u32_testbit_high; [apply reverse_bits_range | exact Hge].
Qed.

Lemma get_level_lowest_differing_bit_witness :
  get_level (reverse_bits 5) (reverse_bits 13) = Some (31 - 3).
Proof.
  apply (get_level_lowest_differing_bit 5 13 3).
  - unfold is_u32. lia.
  - unfold is_u32. lia.
  - lia.
  - cbn. discriminate.
  - intros i Hi.
    assert (Hcases : i = 0 \/ i = 1 \/ i = 2) by lia.
    destruct Hcases as [-> | [-> | ->]]; reflexivity.
Defined.

(** X2: [reverse_bits] distributes over exclusive or, and keeps different
    identifiers different: the test [source_id != target_id] on reversed
    identifiers is the test on the identifiers themselves. *)
Theorem reverse_bits_xor_and_distinct (id_a id_b : Z) :
  is_u32 id_a -> is_u32 id_b ->
  reverse_bits (Z.lxor id_a id_b)
  = Z.lxor (reverse_bits id_a) (reverse_bits id_b)
  /\ ((reverse_bits id_a =? reverse_bits id_b) = (id_a =? id_b)).
Proof.
  intros Ha Hb. split.
  - symmetry. now apply reverse_bits_lxor.
  - destruct (Z.eqb_spec id_a id_b) as [-> | Hne].
    + apply Z.eqb_refl.
    + apply Z.eqb_neq. intros Heq. apply Hne. now apply reverse_bits_inj.
Qed.

Lemma reverse_bits_xor_and_distinct_witness :
  reverse_bits (Z.lxor 6 12) = Z.lxor (reverse_bits 6) (reverse_bits 12)
  /\ ((reverse_bits 6 =? reverse_bits 12) = (6 =? 12)).
Proof.
  apply (reverse_bits_xor_and_distinct 6 12); unfold is_u32; lia.
Defined.

(** ** What one boundary arc does *)

Lemma push_back_at_insert level c bv bucket :
  bv !! Z.to_nat level = Some bucket ->
  push_back_at level c bv = Some (<[Z.to_nat level := bucket ++ [c]]> bv).
Proof. intros Hb. unfold push_back_at. now rewrite Hb. Qed.

(** X3: an arc between nodes with different identifiers appends the
    coordinate of its source and then that of its target to the bucket of
    its level, and changes no other bucket. *)
Theorem boundary_arc_files_both_endpoints (ids : list Z)
    (graph : BisectionGraph) (nid edge_target id_s id_t : Z)
    (c_s c_t : Coordinate) (bv : BorderVertices) (bucket : list Coordinate) :
  is_u32 id_s -> is_u32 id_t -> id_s <> id_t ->
  ids !! Z.to_nat edge_target = Some id_t ->
  Node graph nid = Some c_s -> Node graph edge_target = Some c_t ->
  bv !! Z.to_nat (Z.log2 (Z.lxor (reverse_bits id_s) (reverse_bits id_t)))
  = Some bucket ->
  visit_edge ids graph nid (reverse_bits id_s) bv edge_target
  = Some (<[Z.to_nat (Z.log2 (Z.lxor (reverse_bits id_s) (reverse_bits id_t)))
            := bucket ++ [c_s; c_t]]> bv).
Proof.
  intros Hs Ht Hne Hid Hcs Hct Hb.
  rewrite (visit_edge_boundary ids graph nid edge_target id_s id_t c_s c_t bv)
    by assumption.
  cbn zeta. rewrite (push_back_at_insert _ _ _ _ Hb).
  assert (Hlt : (Z.to_nat (Z.log2 (Z.lxor (reverse_bits id_s) (reverse_bits id_t)))
                 < length bv)%nat) by (eapply lookup_lt_Some; exact Hb).
  erewrite push_back_at_insert by (now apply list_lookup_insert_eq).
  rewrite list_insert_insert_eq, <- app_assoc. reflexivity.
Qed.

Lemma boundary_arc_files_both_endpoints_witness :
  visit_edge [0; 1; 1; 0] path_graph 0 (reverse_bits 0) (replicate 33 []) 1
  = Some (<[31%nat := [] ++ [ {| lon := 0; lat := 0 |};
                              {| lon := 1; lat := 0 |} ]]> (replicate 33 [])).
Proof.
  assert (H0 : is_u32 0) by (unfold is_u32; lia).
  assert (H1 : is_u32 1) by (unfold is_u32; lia).
  assert (Hne : 0 <> 1) by lia.
  exact (boundary_arc_files_both_endpoints [0; 1; 1; 0] path_graph 0 1 0 1
           {| lon := 0; lat := 0 |} {| lon := 1; lat := 0 |}
           (replicate 33 []) [] H0 H1 Hne eq_refl eq_refl eq_refl eq_refl).
Defined.

(** ** Invariants of the boundary loop *)

Lemma fold_option_preserves {A B} (P : A -> Prop) (f : A -> B -> option A)
    (l : list B) (a a' : A) :
  (forall a0 b a1, b ∈ l -> f a0 b = Some a1 -> P a0 -> P a1) ->
  P a -> fold_option f a l = Some a' -> P a'.
Proof.
  revert a. induction l as [|b l IH]; intros a Hstep Ha; cbn [fold_option].
  - now intros [= <-].
  - destruct (f a b) as [a1|] eqn:Hf; [|discriminate].
    apply IH.
    + intros a0 b0 a2 Hb0. apply Hstep. now apply list_elem_of_further.
    + apply (Hstep a b a1); [apply list_elem_of_here | exact Hf | exact Ha].
Qed.

Lemma push_back_at_Some level c (bv bv' : BorderVertices) :
  push_back_at level c bv = Some bv' ->
  exists bucket, bv !! Z.to_nat level = Some bucket
                 /\ bv' = <[Z.to_nat level := bucket ++ [c]]> bv.
Proof.
  unfold push_back_at. destruct (bv !! Z.to_nat level) as [bucket|]; [|discriminate].
  intros [= <-]. eauto.
Qed.

(** The two outcomes of a defined step: nothing, or one bucket below index
    32 extended by two coordinates of the graph. *)
Lemma visit_edge_Some ids graph nid source_id (bv bv' : BorderVertices) t :
  is_u32 source_id ->
  visit_edge ids graph nid source_id bv t = Some bv' ->
  (exists id, ids !! Z.to_nat t = Some id /\ source_id = reverse_bits id
              /\ bv' = bv)
  \/ exists level bucket c_s c_t,
       (level < 32)%nat /\ bv !! level = Some bucket
       /\ c_s ∈ graph_nodes graph /\ c_t ∈ graph_nodes graph
       /\ bv' = <[level := bucket ++ [c_s; c_t]]> bv.
Proof.
  intros Hs. unfold visit_edge, Node.
  destruct (ids !! Z.to_nat t) as [id|]; [|discriminate].
  destruct (Z.eqb_spec source_id (reverse_bits id)) as [Heq | Hne]; cbn [negb].
  { intros [= <-]. left. now exists id. }
  destruct (get_level_in_range source_id (reverse_bits id) Hs
              (reverse_bits_range id) Hne) as (level & -> & Hlevel).
  destruct (graph_nodes graph !! Z.to_nat nid) as [c_s|] eqn:Hcs; [|discriminate].
  destruct (graph_nodes graph !! Z.to_nat t) as [c_t|] eqn:Hct; [|discriminate].
  destruct (push_back_at level c_s bv) as [bv1|] eqn:H1; [|discriminate].
  apply push_back_at_Some in H1 as (bucket & Hb & ->).
  assert (Hlt : (Z.to_nat level < length bv)%nat) by (eapply lookup_lt_Some; exact Hb).
  erewrite push_back_at_insert by (now apply list_lookup_insert_eq).
  rewrite list_insert_insert_eq, <- app_assoc.
  intros [= <-]. right. exists (Z.to_nat level), bucket, c_s, c_t.
  repeat split; try assumption.
  - lia.
  - eapply list_elem_of_lookup_2. exact Hcs.
  - eapply list_elem_of_lookup_2. exact Hct.
Qed.

Lemma border_invariant_initial graph : border_invariant graph (replicate 33 []).
Proof.
  split; [reflexivity | split; [reflexivity|]].
  apply Forall_replicate. split; [exists 0%nat; reflexivity | constructor].
Qed.

Lemma visit_edge_border_invariant ids graph nid source_id bv bv' t :
  is_u32 source_id ->
  visit_edge ids graph nid source_id bv t = Some bv' ->
  border_invariant graph bv -> border_invariant graph bv'.
Proof.
  intros Hs Hv (Hlen & Hlast & Hall).
  apply visit_edge_Some in Hv
    as [(_ & _ & _ & ->) | (level & bucket & c_s & c_t & Hl & Hb & Hcs & Hct & ->)];
    [now repeat split | | exact Hs].
  split; [|split].
  - now rewrite length_insert.
  - rewrite list_lookup_insert_ne by lia. exact Hlast.
  - apply Forall_insert; [exact Hall|].
    pose proof (Forall_lookup_1 _ _ _ _ Hall Hb) as [[k Hk] Hin].
    split.
    + exists (k + 1)%nat. rewrite length_app. cbn. lia.
    + apply Forall_app. split; [exact Hin|]. now repeat constructor.
Qed.

Lemma collect_border_invariant graph ids bv :
  collect_border_vertices graph ids = Some bv -> border_invariant graph bv.
Proof.
  unfold collect_border_vertices.
  apply (fold_option_preserves (border_invariant graph));
    [|apply border_invariant_initial].
  intros bv0 nid bv1 _. unfold visit_node.
  destruct (ids !! Z.to_nat nid) as [id|]; [|discriminate].
  intros Hfold Hinv. revert Hinv Hfold.
  apply (fold_option_preserves (border_invariant graph)).
  intros bv2 t bv3 _ Hv. apply (visit_edge_border_invariant _ _ _ _ _ _ _ (reverse_bits_range id) Hv).
Qed.

(** X4: with one identifier per node and every arc ending at a node of the
    graph, the loop runs without an access out of range and ends with 33
    buckets of which the last, index 32, is empty: no level exceeds 31. *)
Theorem border_loop_defined_and_bounded (graph : BisectionGraph)
    (ids : list Z) :
  Z.of_nat (length ids) = NumberOfNodes graph ->
  (forall nid t, 0 <= nid < NumberOfNodes graph -> t ∈ Edges graph nid ->
     0 <= t < NumberOfNodes graph) ->
  exists bv, collect_border_vertices graph ids = Some bv
             /\ length bv = 33%nat /\ bv !! 32%nat = Some [].
Proof.
  intros Hlen Harcs.
  destruct (collect_border_vertices_defined graph ids Hlen Harcs) as (bv & Hbv & _).
  exists bv. split; [exact Hbv|].
  apply collect_border_invariant in Hbv as (H33 & Hlast & _). now split.
Qed.

Lemma path_graph_arcs nid t :
  0 <= nid < NumberOfNodes path_graph -> t ∈ Edges path_graph nid ->
  0 <= t < NumberOfNodes path_graph.
Proof.
  intros Hnid. change (NumberOfNodes path_graph) with 4 in *.
  assert (Hc : nid = 0 \/ nid = 1 \/ nid = 2 \/ nid = 3) by lia.
  destruct Hc as [-> | [-> | [-> | ->]]]; vm_compute Edges;
    rewrite !elem_of_cons, elem_of_nil; lia.
Qed.

Lemma border_loop_defined_and_bounded_witness :
  exists bv, collect_border_vertices path_graph [0; 2; 1; 3] = Some bv
             /\ length bv = 33%nat /\ bv !! 32%nat = Some [].
Proof.
  exact (border_loop_defined_and_bounded path_graph [0; 2; 1; 3]
           eq_refl path_graph_arcs).
Defined.

(** X5: whenever the loop completes, every bucket holds an even number of
    coordinates, and each of them is the coordinate of a node of the graph. *)
Theorem border_vertices_are_node_pairs (graph : BisectionGraph)
    (ids : list Z) (bv : BorderVertices) :
  collect_border_vertices graph ids = Some bv ->
  forall bucket, bucket ∈ bv ->
    Nat.Even (length bucket)
    /\ forall c, c ∈ bucket -> c ∈ graph_nodes graph.
Proof.
  intros Hbv bucket Hin.
  apply collect_border_invariant in Hbv as (_ & _ & Hall).
  rewrite Forall_forall in Hall. destruct (Hall bucket Hin) as [Heven Hnodes].
  split; [exact Heven|]. now rewrite Forall_forall in Hnodes.
Qed.

Lemma border_vertices_are_node_pairs_witness :
  exists bv, collect_border_vertices path_graph [0; 2; 1; 3] = Some bv
             /\ forall bucket, bucket ∈ bv ->
                  Nat.Even (length bucket)
                  /\ forall c, c ∈ bucket -> c ∈ graph_nodes path_graph.
Proof.
  destruct (collect_border_vertices_defined path_graph [0; 2; 1; 3]
              eq_refl path_graph_arcs) as (bv & Hbv & _).
  exists bv. split; [exact Hbv|].
  exact (border_vertices_are_node_pairs path_graph [0; 2; 1; 3] bv Hbv).
Defined.

(** ** The comparator of the output loop *)

Lemma coordinate_less_spec a b :
  coordinate_less a b = true <->
  lon a < lon b \/ (lon a = lon b /\ lat a < lat b).
Proof.
  unfold coordinate_less.
  rewrite orb_true_iff, andb_true_iff, !Z.ltb_lt, Z.eqb_eq. reflexivity.
Qed.

Lemma coordinate_less_false a b :
  coordinate_less a b = false <->
  lon b < lon a \/ (lon a = lon b /\ lat b <= lat a).
Proof.
  rewrite <- not_true_iff_false, coordinate_less_spec. lia.
Qed.

Lemma coordinate_eqb_eq a b : coordinate_eqb a b = true <-> a = b.
Proof.
  unfold coordinate_eqb. rewrite andb_true_iff, !Z.eqb_eq.
  destruct a, b; cbn. split; [intros [-> ->]; reflexivity | intros [= -> ->]; auto].
Qed.

Lemma coordinate_eq_fields a b : lon a = lon b -> lat a = lat b -> a = b.
Proof. destruct a, b; cbn. now intros -> ->. Qed.

#[local] Instance coordinate_le_trans : Transitive coordinate_le.
Proof.
  intros a b c. unfold coordinate_le. rewrite !coordinate_less_false. lia.
Qed.

#[local] Instance coordinate_le_antisymm : AntiSymm (=) coordinate_le.
Proof.
  intros a b. unfold coordinate_le. rewrite !coordinate_less_false.
  intros H1 H2. apply coordinate_eq_fields; lia.
Qed.

#[local] Instance coordinate_lt_trans : Transitive coordinate_lt.
Proof.
  intros a b c. unfold coordinate_lt. rewrite !coordinate_less_spec. lia.
Qed.

(** X6: the comparator given to [std::sort] is a strict total order on
    coordinates: irreflexive, transitive, and of two different coordinates
    one is before the other; [operator==] holds exactly of equal ones. *)
Theorem coordinate_less_strict_total_order :
  (forall a, coordinate_less a a = false)
  /\ (forall a b c, coordinate_less a b = true -> coordinate_less b c = true ->
        coordinate_less a c = true)
  /\ (forall a b, coordinate_less a b = true \/ a = b
                  \/ coordinate_less b a = true)
  /\ (forall a b, coordinate_less a b = true -> coordinate_less b a = false)
  /\ (forall a b, coordinate_eqb a b = true <->
                  coordinate_less a b = false /\ coordinate_less b a = false).
Proof.
  split; [|split; [|split; [|split]]].
  - intros a. apply coordinate_less_false. lia.
  - intros a b c. rewrite !coordinate_less_spec. lia.
  - intros a b.
    destruct (Z.lt_trichotomy (lon a) (lon b)) as [? | [? | ?]];
      destruct (Z.lt_trichotomy (lat a) (lat b)) as [? | [? | ?]];
      rewrite !coordinate_less_spec;
      try (left; lia); try (right; right; lia).
    right; left. now apply coordinate_eq_fields.
  - intros a b. rewrite coordinate_less_spec, coordinate_less_false. lia.
  - intros a b. rewrite coordinate_eqb_eq, !coordinate_less_false. split.
    + intros ->. lia.
    + intros [H1 H2]. apply coordinate_eq_fields; lia.
Qed.

(** ** Sorting and removal of duplicates *)

Lemma sort_insert_Permutation c l : sort_insert c l ≡ₚ c :: l.
Proof.
  induction l as [|x l IH]; cbn [sort_insert]; [reflexivity|].
  destruct (coordinate_less c x); [reflexivity|].
  rewrite IH. apply Permutation_swap.
Qed.

Lemma std_sort_Permutation l : std_sort l ≡ₚ l.
Proof.
  induction l as [|x l IH]; cbn; [reflexivity|].
  unfold std_sort in IH. now rewrite sort_insert_Permutation, IH.
Qed.

Lemma sort_insert_sorted c l :
  StronglySorted coordinate_le l -> StronglySorted coordinate_le (sort_insert c l).
Proof.
  induction 1 as [|x l Hs IH Hx]; cbn [sort_insert].
  - repeat constructor.
  - destruct (coordinate_less c x) eqn:Hcx.
    + constructor; [now constructor|].
      assert (Hle : coordinate_le c x).
      { unfold coordinate_le. apply coordinate_less_false.
        apply coordinate_less_spec in Hcx. lia. }
      constructor; [exact Hle|].
      eapply Forall_impl; [exact Hx|]. intros y Hy. now transitivity x.
    + constructor; [exact IH|].
      rewrite (sort_insert_Permutation c l). constructor; assumption.
Qed.

Lemma std_sort_sorted l : StronglySorted coordinate_le (std_sort l).
Proof.
  induction l as [|x l IH]; cbn; [constructor|].
  now apply sort_insert_sorted.
Qed.

(** After a kept element that is not after any element of a sorted list:
    what stays is strictly after it, strictly increasing, and has the
    elements of the list. *)
Lemma unique_after_sorted kept l :
  StronglySorted coordinate_le l -> Forall (coordinate_le kept) l ->
  StronglySorted coordinate_lt (unique_after kept l)
  /\ Forall (coordinate_lt kept) (unique_after kept l)
  /\ forall c, c ∈ kept :: unique_after kept l <-> c ∈ kept :: l.
Proof.
  intros Hs. revert kept.
  induction Hs as [|y l Hs IH Hy]; intros kept Hk; cbn [unique_after].
  - split; [constructor | split; [constructor | reflexivity]].
  - apply Forall_cons in Hk as [Hky Hkl].
    destruct (coordinate_eqb kept y) eqn:Heq.
    + apply coordinate_eqb_eq in Heq as <-.
      destruct (IH kept Hkl) as (H1 & H2 & H3).
      split; [exact H1 | split; [exact H2|]].
      intros c. specialize (H3 c). rewrite !elem_of_cons in *. tauto.
    + destruct (IH y Hy) as (H1 & H2 & H3).
      assert (Hlt : coordinate_lt kept y).
      { unfold coordinate_lt, coordinate_le in *.
        apply coordinate_less_false in Hky. apply coordinate_less_spec.
        assert (Hne : kept <> y).
        { intros ->. rewrite (proj2 (coordinate_eqb_eq y y) eq_refl) in Heq.
          discriminate. }
        destruct (Z.eq_dec (lon kept) (lon y)) as [Hl | Hl]; [|lia].
        destruct (Z.eq_dec (lat kept) (lat y)) as [Hla | Hla]; [|lia].
        exfalso. apply Hne. now apply coordinate_eq_fields. }
      split; [|split].
      * constructor; assumption.
      * constructor; [exact Hlt|].
        eapply Forall_impl; [exact H2|]. intros z Hz. now transitivity y.
      * intros c. specialize (H3 c). rewrite !elem_of_cons in *. tauto.
Qed.

Lemma std_unique_sorted l :
  StronglySorted coordinate_le l ->
  StronglySorted coordinate_lt (std_unique l)
  /\ forall c, c ∈ std_unique l <-> c ∈ l.
Proof.
  intros Hs. destruct l as [|x l]; cbn [std_unique]; [split; [constructor | tauto]|].
  apply StronglySorted_inv in Hs as [Hs Hx].
  destruct (unique_after_sorted x l Hs Hx) as (H1 & H2 & H3).
  split; [now constructor | exact H3].
Qed.

Lemma strictly_sorted_NoDup l : StronglySorted coordinate_lt l -> NoDup l.
Proof.
  induction 1 as [|x l Hs IH Hx]; constructor; [|exact IH].
  intros Hin. rewrite Forall_forall in Hx. specialize (Hx x Hin).
  unfold coordinate_lt in Hx. apply coordinate_less_spec in Hx. lia.
Qed.

(** X7: what is written for a bucket is strictly increasing in the order
    (lon, lat), hence free of duplicates, and has exactly the coordinates of
    the bucket. *)
Theorem written_vertices_sorted_distinct (bv : list Coordinate) :
  StronglySorted coordinate_lt (std_unique (std_sort bv))
  /\ NoDup (std_unique (std_sort bv))
  /\ forall c, c ∈ std_unique (std_sort bv) <-> c ∈ bv.
Proof.
  destruct (std_unique_sorted (std_sort bv) (std_sort_sorted bv)) as [Hs Hel].
  split; [exact Hs | split; [now apply strictly_sorted_NoDup|]].
  intros c. rewrite Hel. now rewrite (std_sort_Permutation bv).
Qed.

(** X8: the sorted bucket does not depend on how [std::sort] proceeds: a
    rearrangement of the bucket in which no element is before its
    predecessor is the list [std_sort] computes. *)
Theorem std_sort_unique_result (bv sorted : list Coordinate) :
  sorted ≡ₚ bv -> Sorted coordinate_le sorted -> sorted = std_sort bv.
Proof.
  intros Hperm Hsorted.
  apply (Sorted_unique coordinate_le); [exact Hsorted | |].
  - apply StronglySorted_Sorted, std_sort_sorted.
  - now rewrite std_sort_Permutation.
Qed.

Lemma std_sort_unique_result_witness :
  [ {| lon := 1; lat := 5 |}; {| lon := 1; lat := 7 |}; {| lon := 2; lat := 0 |} ]
  = std_sort [ {| lon := 2; lat := 0 |}; {| lon := 1; lat := 7 |};
               {| lon := 1; lat := 5 |} ].
Proof.
  apply (std_sort_unique_result
           [ {| lon := 2; lat := 0 |}; {| lon := 1; lat := 7 |};
             {| lon := 1; lat := 5 |} ]
           [ {| lon := 1; lat := 5 |}; {| lon := 1; lat := 7 |};
             {| lon := 2; lat := 0 |} ]).
  - apply Permutation_rev.
  - repeat constructor.
Defined.

(** ** Numbering of the written features *)

Lemma write_levels_spec start (bvs : BorderVertices) :
  write_levels start bvs =
  zip_with (fun level bv => {| feature_level := level;
                               feature_vertices := std_unique (std_sort bv) |})
           (seqZ start (Z.of_nat (length (List.filter nonempty bvs))))
           (List.filter nonempty bvs).
Proof.
  revert start. induction bvs as [|bv bvs IH]; intros start; cbn [write_levels List.filter].
  - reflexivity.
  - destruct (nonempty bv).
    + cbn [length]. rewrite seqZ_cons by lia. cbn [zip_with]. f_equal.
      rewrite IH. do 2 f_equal; lia.
    + apply IH.
Qed.

(** X9: the features are written for the non-empty buckets, in the order of
    the buckets, and numbered 0, 1, 2, ... without a gap: the number under
    ["level"] is the rank of the bucket among the non-empty ones, not its
    index. *)
Theorem written_levels_are_ranks (border_vertices : BorderVertices) :
  length (write_levels 0 border_vertices)
  = length (List.filter nonempty border_vertices)
  /\ map feature_level (write_levels 0 border_vertices)
     = seqZ 0 (Z.of_nat (length (List.filter nonempty border_vertices)))
  /\ map feature_vertices (write_levels 0 border_vertices)
     = map (fun bv => std_unique (std_sort bv))
           (List.filter nonempty border_vertices).
Proof.
  rewrite write_levels_spec.
  set (bs := List.filter nonempty border_vertices).
  assert (Hgen : forall start,
    length (zip_with (fun level bv => {| feature_level := level;
                 feature_vertices := std_unique (std_sort bv) |})
              (seqZ start (Z.of_nat (length bs))) bs) = length bs
    /\ map feature_level (zip_with (fun level bv => {| feature_level := level;
                 feature_vertices := std_unique (std_sort bv) |})
              (seqZ start (Z.of_nat (length bs))) bs)
       = seqZ start (Z.of_nat (length bs))
    /\ map feature_vertices (zip_with (fun level bv => {| feature_level := level;
                 feature_vertices := std_unique (std_sort bv) |})
              (seqZ start (Z.of_nat (length bs))) bs)
       = map (fun bv => std_unique (std_sort bv)) bs).
  { induction bs as [|b bs IH]; intros start; [now cbn|].
    cbn [length]. rewrite seqZ_cons by lia. cbn [zip_with map length].
    replace (Z.pred (Z.of_nat (S (length bs)))) with (Z.of_nat (length bs)) by lia.
    destruct (IH (Z.succ start)) as (H1 & H2 & H3).
    now rewrite H1, H2, H3. }
  apply Hgen.
Qed.

(** ** Boundary arcs and written features *)

Lemma fold_option_reaches {A B} (Q : A -> Prop) (f : A -> B -> option A)
    (l : list B) (a a' : A) (b : B) :
  (forall a0 b0 a1, b0 ∈ l -> f a0 b0 = Some a1 -> Q a0 -> Q a1) ->
  b ∈ l -> (forall a0 a1, f a0 b = Some a1 -> Q a1) ->
  fold_option f a l = Some a' -> Q a'.
Proof.
  revert a. induction l as [|b0 l IH]; intros a Hkeep Hb Hset; cbn [fold_option].
  - now apply elem_of_nil in Hb.
  - destruct (f a b0) as [a1|] eqn:Hf; [|discriminate].
    apply elem_of_cons in Hb as [<- | Hb].
    + apply (fold_option_preserves Q).
      * intros a2 b1 a3 Hb1. apply Hkeep. now apply list_elem_of_further.
      * exact (Hset a a1 Hf).
    + apply IH; [|exact Hb | exact Hset].
      intros a2 b1 a3 Hb1. apply Hkeep. now apply list_elem_of_further.
Qed.

Lemma visit_edge_keeps_filled ids graph nid source_id (bv bv' : BorderVertices) t :
  is_u32 source_id ->
  visit_edge ids graph nid source_id bv t = Some bv' ->
  Exists (fun bucket => bucket <> []) bv ->
  Exists (fun bucket => bucket <> []) bv'.
Proof.
  intros Hs Hv Hex.
  apply visit_edge_Some in Hv
    as [(_ & _ & _ & ->) | (level & bucket & c_s & c_t & Hl & Hb & _ & _ & ->)];
    [exact Hex | | exact Hs].
  apply Exists_exists. exists (bucket ++ [c_s; c_t]). split.
  - apply list_elem_of_insert. eapply lookup_lt_Some. exact Hb.
  - now destruct bucket.
Qed.

Lemma visit_edge_crossing_fills ids graph nid source_id (bv bv' : BorderVertices)
    t id_t :
  is_u32 source_id ->
  ids !! Z.to_nat t = Some id_t -> source_id <> reverse_bits id_t ->
  visit_edge ids graph nid source_id bv t = Some bv' ->
  Exists (fun bucket => bucket <> []) bv'.
Proof.
  intros Hs Hid Hne Hv.
  apply visit_edge_Some in Hv
    as [(id & Hid' & Heq & _) | (level & bucket & c_s & c_t & Hl & Hb & _ & _ & ->)];
    [congruence | | exact Hs].
  apply Exists_exists. exists (bucket ++ [c_s; c_t]). split.
  - apply list_elem_of_insert. eapply lookup_lt_Some. exact Hb.
  - now destruct bucket.
Qed.

Lemma visit_node_keeps_filled ids graph (bv bv' : BorderVertices) nid :
  visit_node ids graph bv nid = Some bv' ->
  Exists (fun bucket => bucket <> []) bv ->
  Exists (fun bucket => bucket <> []) bv'.
Proof.
  unfold visit_node. destruct (ids !! Z.to_nat nid) as [id|]; [|discriminate].
  intros Hfold Hex. revert Hex Hfold.
  apply (fold_option_preserves (Exists (fun bucket => bucket <> []))).
  intros bv0 t bv1 _.
  apply visit_edge_keeps_filled, reverse_bits_range.
Qed.

Lemma write_levels_nil start (bvs : BorderVertices) :
  write_levels start bvs = [] <-> Forall (fun bucket => bucket = []) bvs.
Proof.
  revert start. induction bvs as [|bv bvs IH]; intros start; cbn [write_levels].
  - split; [constructor | reflexivity].
  - destruct bv as [|c bv]; cbn [nonempty].
    + rewrite IH. split; [now constructor | now intros [_ H]%Forall_cons].
    + split; [discriminate | intros [H _]%Forall_cons; discriminate].
Qed.

(** X10: [LogGeojson] writes no feature exactly when no arc of the graph
    joins two nodes with different identifiers. *)
Theorem no_feature_iff_no_boundary_arc (graph : BisectionGraph)
    (ids : list Z) :
  Z.of_nat (length ids) = NumberOfNodes graph ->
  Forall is_u32 ids ->
  (forall nid t, 0 <= nid < NumberOfNodes graph -> t ∈ Edges graph nid ->
     0 <= t < NumberOfNodes graph) ->
  LogGeojson_features graph ids = Some [] <->
  (forall nid t, 0 <= nid < NumberOfNodes graph -> t ∈ Edges graph nid ->
     ids !! Z.to_nat t = ids !! Z.to_nat nid).
Proof.
  intros Hlen Hu32 Harcs. unfold LogGeojson_features. split.
  - destruct (collect_border_vertices graph ids) as [bv|] eqn:Hbv; [|discriminate].
    intros [= Hw]. apply write_levels_nil in Hw.
    intros nid t Hnid Ht.
    destruct (ids !! Z.to_nat nid) as [id_s|] eqn:Hs;
      [|apply lookup_ge_None in Hs; lia].
    destruct (ids !! Z.to_nat t) as [id_t|] eqn:Hidt;
      [|apply lookup_ge_None in Hidt; specialize (Harcs nid t Hnid Ht); lia].
    destruct (Z.eq_dec id_t id_s) as [-> | Hne]; [reflexivity | exfalso].
    assert (Hex : Exists (fun bucket => bucket <> []) bv).
    { unfold collect_border_vertices in Hbv. revert Hbv.
      apply (fold_option_reaches (Exists (fun bucket => bucket <> []))
               (visit_node ids graph) _ _ _ nid).
      - intros bv0 n bv1 _. apply visit_node_keeps_filled.
      - apply elem_of_seqZ. lia.
      - intros bv0 bv1. unfold visit_node. rewrite Hs.
        apply (fold_option_reaches (Exists (fun bucket => bucket <> []))
                 (visit_edge ids graph nid (reverse_bits id_s)) _ _ _ t).
        + intros bv2 t' bv3 _. apply visit_edge_keeps_filled, reverse_bits_range.
        + exact Ht.
        + intros bv2 bv3.
          apply (visit_edge_crossing_fills ids graph nid _ bv2 bv3 t id_t);
            [apply reverse_bits_range | exact Hidt |].
          intros Heq. apply Hne. symmetry.
          apply reverse_bits_inj; [| | exact Heq].
          * eapply Forall_lookup_1; [exact Hu32 | exact Hs].
          * eapply Forall_lookup_1; [exact Hu32 | exact Hidt]. }
    apply Exists_exists in Hex as (bucket & Hin & Hnonempty).
    rewrite Forall_forall in Hw. now apply Hnonempty, Hw.
  - intros Hint.
    rewrite (collect_border_vertices_interior graph ids Hlen).
    + reflexivity.
    + intros nid t Hnid Ht. split; [|now apply Hint].
      apply lookup_lt_is_Some_2. specialize (Harcs nid t Hnid Ht). lia.
Qed.

Lemma no_feature_iff_no_boundary_arc_witness :
  LogGeojson_features path_graph [5; 5; 5; 5] = Some [] <->
  (forall nid t, 0 <= nid < NumberOfNodes path_graph ->
     t ∈ Edges path_graph nid ->
     [5; 5; 5; 5] !! Z.to_nat t = [5; 5; 5; 5] !! Z.to_nat nid).
Proof.
  apply (no_feature_iff_no_boundary_arc path_graph [5; 5; 5; 5]).
  - reflexivity.
  - repeat constructor; unfold is_u32; lia.
  - exact path_graph_arcs.
Defined.

Lemma write_levels_app start (l1 l2 : BorderVertices) :
  write_levels start (l1 ++ l2) =
  write_levels start l1
  ++ write_levels (start + Z.of_nat (length (write_levels start l1))) l2.
Proof.
  revert start. induction l1 as [|bv l1 IH]; intros start; cbn [app write_levels].
  - cbn. f_equal. lia.
  - destruct (nonempty bv).
    + cbn [app length]. f_equal. rewrite IH. do 2 f_equal. lia.
    + apply IH.
Qed.

(** X11: the bucket of the first split, index 31, is written last of all
    and so receives the highest number: the count of written features
    minus one. *)
Theorem first_split_written_last (border_vertices : BorderVertices)
    (c : Coordinate) (bucket : list Coordinate) :
  length border_vertices = 33%nat ->
  border_vertices !! 32%nat = Some [] ->
  border_vertices !! 31%nat = Some (c :: bucket) ->
  last (write_levels 0 border_vertices)
  = Some {| feature_level :=
              Z.of_nat (length (write_levels 0 border_vertices)) - 1;
            feature_vertices := std_unique (std_sort (c :: bucket)) |}.
Proof.
  intros Hlen H32 H31.
  assert (Hsplit : border_vertices = take 31 border_vertices ++ [c :: bucket; []]).
  { rewrite <- (take_drop 31 border_vertices) at 1. f_equal.
    rewrite (drop_S _ _ _ H31). f_equal.
    rewrite (drop_S _ _ _ H32). f_equal.
    apply drop_ge. lia. }
  rewrite Hsplit at 1 2. rewrite write_levels_app.
  cbn [write_levels nonempty].
  rewrite last_snoc, length_app. cbn [length]. do 2 f_equal. lia.
Qed.

Lemma first_split_written_last_witness :
  last (write_levels 0 (<[31%nat := [ {| lon := 1; lat := 0 |} ]]>
                          (<[30%nat := [ {| lon := 2; lat := 0 |} ]]>
                             (replicate 33 []))))
  = Some {| feature_level :=
              Z.of_nat (length (write_levels 0
                 (<[31%nat := [ {| lon := 1; lat := 0 |} ]]>
                    (<[30%nat := [ {| lon := 2; lat := 0 |} ]]>
                       (replicate 33 []))))) - 1;
            feature_vertices := std_unique (std_sort [ {| lon := 1; lat := 0 |} ]) |}.
Proof.
  exact (first_split_written_last
           (<[31%nat := [ {| lon := 1; lat := 0 |} ]]>
              (<[30%nat := [ {| lon := 2; lat := 0 |} ]]> (replicate 33 [])))
           {| lon := 1; lat := 0 |} [] eq_refl eq_refl eq_refl).
Defined.

(** ** More on the graph loader *)

Lemma byte_to_Z_range b : 0 <= byte_to_Z b < 256.
Proof.
  unfold byte_to_Z. pose proof (Byte.to_N_bounded b) as Hb. lia.
Qed.

Lemma byte_of_Z_to_Z b : byte_of_Z (byte_to_Z b) = b.
Proof.
  unfold byte_of_Z, byte_to_Z. pose proof (Byte.to_N_bounded b) as Hb.
  rewrite Z.mod_small by lia. rewrite N2Z.id, Byte.of_to_N. reflexivity.
Qed.

Lemma byte_of_Z_mod z k : byte_of_Z (z + 256 * k) = byte_of_Z z.
Proof.
  unfold byte_of_Z. replace (z + 256 * k) with (z + k * 256) by lia.
  now rewrite Z.mod_add by lia.
Qed.

Lemma le_decode_bound bs : 0 <= le_decode bs < 2 ^ (8 * Z.of_nat (length bs)).
Proof.
  induction bs as [|b bs IH]; cbn [le_decode length]; [cbn; lia|].
  pose proof (byte_to_Z_range b).
  replace (8 * Z.of_nat (S (length bs))) with (8 + 8 * Z.of_nat (length bs)) by lia.
  rewrite Z.pow_add_r by lia. change (2 ^ 8) with 256. nia.
Qed.

Lemma le_encode_decode bs : le_encode (length bs) (le_decode bs) = bs.
Proof.
  induction bs as [|b bs IH]; cbn [le_decode le_encode length]; [reflexivity|].
  pose proof (byte_to_Z_range b).
  rewrite byte_of_Z_mod, byte_of_Z_to_Z. f_equal.
  replace ((byte_to_Z b + 256 * le_decode bs) / 256) with (le_decode bs); [exact IH|].
  symmetry. rewrite Z.mul_comm, Z.div_add by lia.
  rewrite Z.div_small by lia. reflexivity.
Qed.

Lemma le_encode_decode' n bs : length bs = n -> le_encode n (le_decode bs) = bs.
Proof. intros <-. apply le_encode_decode. Qed.

(** Only the low [8 n] bits of a value reach its [n]-byte image. *)
Lemma le_encode_add n z k : le_encode n (z + k * 2 ^ (8 * Z.of_nat n)) = le_encode n z.
Proof.
  revert z k. induction n as [|n IH]; intros z k; cbn [le_encode]; [reflexivity|].
  replace (8 * Z.of_nat (S n)) with (8 + 8 * Z.of_nat n) by lia.
  rewrite Z.pow_add_r by lia. change (2 ^ 8) with 256.
  replace (z + k * (256 * 2 ^ (8 * Z.of_nat n)))
    with (z + 256 * (k * 2 ^ (8 * Z.of_nat n))) by lia.
  rewrite byte_of_Z_mod. f_equal.
  replace ((z + 256 * (k * 2 ^ (8 * Z.of_nat n))) / 256)
    with (z / 256 + k * 2 ^ (8 * Z.of_nat n)); [apply IH|].
  symmetry. rewrite (Z.mul_comm 256), Z.div_add by lia. reflexivity.
Qed.

Lemma le_encode_to_int32 bs :
  length bs = 4%nat -> le_encode 4 (to_int32 (le_decode bs)) = bs.
Proof.
  intros Hlen. unfold to_int32.
  destruct (le_decode bs <? 2 ^ 31).
  - now apply le_encode_decode'.
  - replace (le_decode bs - 2 ^ 32)
      with (le_decode bs + (-1) * 2 ^ (8 * Z.of_nat 4)) by (cbn; lia).
    rewrite le_encode_add. now apply le_encode_decode'.
Qed.

Lemma decode_edge_ok bs : (length bs <= 8)%nat -> edge_ok (decode_edge bs).
Proof.
  intros Hlen. unfold edge_ok, decode_edge, is_u32. cbn [source target].
  pose proof (le_decode_bound (take 4 bs)) as H1.
  pose proof (le_decode_bound (drop 4 bs)) as H2.
  rewrite length_take in H1. rewrite length_drop in H2.
  assert (2 ^ (8 * Z.of_nat (4 `min` length bs)) <= 2 ^ 32)
    by (apply Z.pow_le_mono_r; lia).
  assert (2 ^ (8 * Z.of_nat (length bs - 4)) <= 2 ^ 32)
    by (apply Z.pow_le_mono_r; lia).
  lia.
Qed.

Lemma to_int32_range z : 0 <= z < 2 ^ 32 -> is_i32 (to_int32 z).
Proof.
  intros Hz. unfold to_int32, is_i32.
  destruct (Z.ltb_spec z (2 ^ 31)); lia.
Qed.

Lemma decode_coordinate_ok bs :
  (length bs <= 8)%nat -> coordinate_ok (decode_coordinate bs).
Proof.
  intros Hlen. destruct (decode_edge_ok bs Hlen) as [H1 H2].
  unfold coordinate_ok, decode_coordinate. cbn [lon lat].
  split; apply to_int32_range; assumption.
Qed.

Lemma encode_decode_edge bs :
  length bs = 8%nat -> encode_edge (decode_edge bs) = bs.
Proof.
  intros Hlen. unfold encode_edge, decode_edge. cbn [source target].
  rewrite !le_encode_decode'.
  - apply take_drop.
  - rewrite length_drop. lia.
  - rewrite length_take. lia.
Qed.

Lemma encode_decode_coordinate bs :
  length bs = 8%nat -> encode_coordinate (decode_coordinate bs) = bs.
Proof.
  intros Hlen. unfold encode_coordinate, decode_coordinate. cbn [lon lat].
  rewrite !le_encode_to_int32.
  - apply take_drop.
  - rewrite length_drop. lia.
  - rewrite length_take. lia.
Qed.

Lemma Forall_decode_elements {T} (P : T -> Prop) size (decode : list byte -> T) n bs :
  (forall chunk, (length chunk <= size)%nat -> P (decode chunk)) ->
  Forall P (decode_elements size decode n bs).
Proof.
  intros Hdec. revert bs. induction n as [|n IH]; intros bs; cbn [decode_elements];
    constructor; [|apply IH].
  apply Hdec. rewrite length_take. lia.
Qed.

Lemma encode_decode_elements {T} size (decode : list byte -> T)
    (encode : T -> list byte) n bs :
  (forall chunk, length chunk = size -> encode (decode chunk) = chunk) ->
  (n * size <= length bs)%nat ->
  concat (map encode (decode_elements size decode n bs)) = take (n * size) bs.
Proof.
  intros Hinv. revert bs. induction n as [|n IH]; intros bs Hlen;
    cbn [decode_elements map concat].
  - reflexivity.
  - rewrite Hinv by (rewrite length_take; lia).
    rewrite IH by (rewrite length_drop; lia).
    rewrite take_take_drop. reflexivity.
Qed.

Lemma ReadBytes_enough n s :
  (n <= length s)%nat -> ReadBytes n s = inr (take n s, drop n s).
Proof.
  intros Hn. unfold ReadBytes.
  destruct (Nat.leb_spec n (length s)); [reflexivity | lia].
Qed.

Lemma ReadElementCount64_enough s :
  (8 <= length s)%nat ->
  ReadElementCount64 s = inr (le_decode (take 8 s), drop 8 s).
Proof.
  intros Hs. unfold ReadElementCount64, io_bind, io_ret.
  now rewrite ReadBytes_enough.
Qed.

Lemma ReadOne_u32_enough s :
  (4 <= length s)%nat -> ReadOne_u32 s = inr (le_decode (take 4 s), drop 4 s).
Proof.
  intros Hs. unfold ReadOne_u32, io_bind, io_ret. now rewrite ReadBytes_enough.
Qed.

Lemma ReadInto_enough {T} size (decode : list byte -> T) v s :
  (length v * size <= length s)%nat ->
  ReadInto size decode v s
  = inr (decode_elements size decode (length v) (take (length v * size) s),
         drop (length v * size) s).
Proof.
  intros Hs. unfold ReadInto, io_bind, io_ret. now rewrite ReadBytes_enough.
Qed.

(** The constructor on a stream that holds the bytes its counts ask for. *)
Lemma CompressedNodeBasedGraph_read_enough s :
  (16 <= length s)%nat ->
  16 + 8 * le_decode (take 8 s) + 8 * le_decode (take 8 (drop 8 s))
  <= Z.of_nat (length s) ->
  let ne := Z.to_nat (le_decode (take 8 s)) in
  let nn := Z.to_nat (le_decode (take 8 (drop 8 s))) in
  CompressedNodeBasedGraph_read s =
  inr ({| edges := decode_elements 8 decode_edge ne
                     (take (ne * 8) (drop 16 s));
          coordinates := decode_elements 8 decode_coordinate nn
                           (take (nn * 8) (drop (16 + ne * 8) s)) |},
       drop (16 + ne * 8 + nn * 8) s).
Proof.
  intros Hl Hsize ne nn.
  pose proof (le_decode_nonneg (take 8 s)).
  pose proof (le_decode_nonneg (take 8 (drop 8 s))).
  unfold CompressedNodeBasedGraph_read, io_bind.
  rewrite ReadElementCount64_enough by lia.
  rewrite ReadElementCount64_enough by (rewrite length_drop; lia).
  rewrite drop_drop.
  rewrite ReadInto_enough
    by (rewrite length_resize, length_drop; subst ne; lia).
  rewrite ReadInto_enough
    by (rewrite !length_resize, !length_drop; subst ne nn; lia).
  rewrite !length_resize, !drop_drop. unfold io_ret.
  fold ne nn. repeat f_equal; lia.
Qed.

Lemma open_reader_enough `{Environment} file :
  (fingerprint_size <= length file)%nat ->
  fingerprint_valid (take fingerprint_size file) = true ->
  open_reader file = inr (drop fingerprint_size file).
Proof.
  intros Hlen Hv. unfold open_reader.
  rewrite ReadBytes_enough by exact Hlen. now rewrite Hv.
Qed.

(** A successful load, spelled out: the graph is decoded from the bytes
    behind the two counts, which the file is long enough to hold. *)
Lemma LoadCompressedNodeBasedGraph_inr `{Environment} file graph :
  LoadCompressedNodeBasedGraph file = inr graph ->
  let body := drop fingerprint_size file in
  let ne := Z.to_nat (le_decode (take 8 body)) in
  let nn := Z.to_nat (le_decode (take 8 (drop 8 body))) in
  (fingerprint_size <= length file)%nat
  /\ fingerprint_valid (take fingerprint_size file) = true
  /\ (16 + ne * 8 + nn * 8 <= length body)%nat
  /\ graph = {| edges := decode_elements 8 decode_edge ne
                           (take (ne * 8) (drop 16 body));
                coordinates := decode_elements 8 decode_coordinate nn
                                 (take (nn * 8) (drop (16 + ne * 8) body)) |}.
Proof.
  intros Hload body ne nn. unfold LoadCompressedNodeBasedGraph in Hload.
  destruct (open_reader file) as [e | s] eqn:Hopen; [discriminate|].
  apply open_reader_inr in Hopen as (Hlen & Hvalid & ->). fold body in Hload.
  destruct (CompressedNodeBasedGraph_read body) as [e | [g s']] eqn:Hread;
    [discriminate|].
  injection Hload as ->.
  pose proof (CompressedNodeBasedGraph_read_inr _ _ _ Hread) as (Hl & _ & _ & Hsize).
  rewrite (CompressedNodeBasedGraph_read_enough body Hl Hsize) in Hread.
  injection Hread as <- _.
  pose proof (le_decode_nonneg (take 8 body)).
  pose proof (le_decode_nonneg (take 8 (drop 8 body))).
  repeat split; try assumption. subst ne nn. lia.
Qed.

(** X12: the loader accepts a file exactly when its fingerprint passes and
    it is at least as long as the two counts it declares require; what the
    bytes of the two sections are plays no role. *)
Theorem load_graph_succeeds_iff `{Environment} (file : list byte) :
  (exists graph, LoadCompressedNodeBasedGraph file = inr graph) <->
  (fingerprint_size <= length file)%nat
  /\ fingerprint_valid (take fingerprint_size file) = true
  /\ exists n, declared_graph_size file = Some n /\ n <= Z.of_nat (length file).
Proof.
  split.
  - intros [graph Hload].
    apply LoadCompressedNodeBasedGraph_inr in Hload as (Hlen & Hvalid & Hsize & _).
    rewrite length_drop in Hsize.
    pose proof (le_decode_nonneg (take 8 (drop fingerprint_size file))).
    pose proof (le_decode_nonneg (take 8 (drop 8 (drop fingerprint_size file)))).
    split; [exact Hlen | split; [exact Hvalid|]].
    unfold declared_graph_size.
    destruct (Nat.leb_spec (fingerprint_size + 16) (length file)); [|lia].
    eexists. split; [reflexivity | lia].
  - intros (Hlen & Hvalid & n & Hn & Hle).
    unfold declared_graph_size in Hn.
    destruct (Nat.leb_spec (fingerprint_size + 16) (length file)) as [H16|];
      [|discriminate].
    injection Hn as <-.
    unfold LoadCompressedNodeBasedGraph.
    rewrite open_reader_enough by assumption.
    rewrite CompressedNodeBasedGraph_read_enough
      by (rewrite length_drop; lia).
    eexists. reflexivity.
Qed.

(** X13: every graph the loader returns has as many edges and coordinates
    as the file declares, every edge endpoint is a 32-bit unsigned value and
    every coordinate component a 32-bit signed one. *)
Theorem loaded_graph_counts_and_ranges `{Environment} (file : list byte)
    (graph : CompressedNodeBasedGraph) :
  LoadCompressedNodeBasedGraph file = inr graph ->
  Z.of_nat (length (edges graph))
  = le_decode (take 8 (drop fingerprint_size file))
  /\ Z.of_nat (length (coordinates graph))
     = le_decode (take 8 (drop 8 (drop fingerprint_size file)))
  /\ Forall edge_ok (edges graph)
  /\ Forall coordinate_ok (coordinates graph).
Proof.
  intros Hload.
  apply LoadCompressedNodeBasedGraph_inr in Hload as (_ & _ & _ & ->).
  cbn [edges coordinates]. rewrite !length_decode_elements.
  pose proof (le_decode_nonneg (take 8 (drop fingerprint_size file))).
  pose proof (le_decode_nonneg (take 8 (drop 8 (drop fingerprint_size file)))).
  split; [lia | split; [lia | split]].
  - apply Forall_decode_elements. exact decode_edge_ok.
  - apply Forall_decode_elements. exact decode_coordinate_ok.
Qed.

Lemma sample_graph_load :
  @LoadCompressedNodeBasedGraph release_build
    (graph_file sample_fingerprint sample_edges sample_coordinates)
  = inr {| edges := sample_edges; coordinates := sample_coordinates |}.
Proof. vm_compute. reflexivity. Qed.

Lemma loaded_graph_counts_and_ranges_witness :
  Z.of_nat (length sample_edges)
  = le_decode (take 8 (drop 8
      (graph_file sample_fingerprint sample_edges sample_coordinates)))
  /\ Z.of_nat (length sample_coordinates)
     = le_decode (take 8 (drop 8 (drop 8
         (graph_file sample_fingerprint sample_edges sample_coordinates))))
  /\ Forall edge_ok sample_edges
  /\ Forall coordinate_ok sample_coordinates.
Proof.
  exact (@loaded_graph_counts_and_ranges release_build
           (graph_file sample_fingerprint sample_edges sample_coordinates)
           {| edges := sample_edges; coordinates := sample_coordinates |}
           sample_graph_load).
Defined.

(** X14: writing a loaded graph back in the layout of the file gives the
    file again, up to the bytes behind the coordinate section, which the
    loader never reads. *)
Theorem loaded_graph_encodes_to_file `{Environment} (file : list byte)
    (graph : CompressedNodeBasedGraph) :
  LoadCompressedNodeBasedGraph file = inr graph ->
  file =
  graph_file (take fingerprint_size file) (edges graph) (coordinates graph)
  ++ drop (fingerprint_size + 16 + length (edges graph) * 8
           + length (coordinates graph) * 8) file.
Proof.
  intros Hload.
  apply LoadCompressedNodeBasedGraph_inr in Hload as (Hlen & _ & Hsize & ->).
  cbn [edges coordinates]. rewrite !length_decode_elements.
  set (body := drop fingerprint_size file) in *.
  set (ne := Z.to_nat (le_decode (take 8 body))) in *.
  set (nn := Z.to_nat (le_decode (take 8 (drop 8 body)))) in *.
  pose proof (le_decode_nonneg (take 8 body)).
  pose proof (le_decode_nonneg (take 8 (drop 8 body))).
  unfold graph_file. rewrite !length_decode_elements.
  rewrite (encode_decode_elements 8 decode_edge encode_edge)
    by (exact encode_decode_edge || (rewrite length_take, length_drop; lia)).
  rewrite (encode_decode_elements 8 decode_coordinate encode_coordinate)
    by (exact encode_decode_coordinate || (rewrite length_take, length_drop; lia)).
  rewrite !take_take, !Nat.min_id.
  unfold ne at 1. rewrite Z2Nat.id by lia.
  unfold nn at 1. rewrite Z2Nat.id by lia.
  rewrite !le_encode_decode' by (rewrite length_take, ?length_drop; lia).
  rewrite <- !app_assoc.
  rewrite <- (take_drop fingerprint_size file) at 1. f_equal. fold body.
  rewrite <- (take_drop 8 body) at 1. f_equal.
  rewrite <- (take_drop 8 (drop 8 body)) at 1. f_equal.
  rewrite drop_drop. change (8 + 8)%nat with 16%nat.
  rewrite <- (take_drop (ne * 8) (drop 16 body)) at 1. f_equal.
  rewrite drop_drop.
  rewrite <- (take_drop (nn * 8) (drop (16 + ne * 8) body)) at 1. f_equal.
  rewrite drop_drop. unfold body. rewrite drop_drop. f_equal. lia.
Qed.

Lemma loaded_graph_encodes_to_file_witness :
  graph_file sample_fingerprint sample_edges sample_coordinates ++ [x2a; x2b]
  = graph_file
      (take 8 (graph_file sample_fingerprint sample_edges sample_coordinates
               ++ [x2a; x2b]))
      sample_edges sample_coordinates
    ++ drop (8 + 16 + length sample_edges * 8 + length sample_coordinates * 8)
         (graph_file sample_fingerprint sample_edges sample_coordinates
          ++ [x2a; x2b]).
Proof.
  assert (Hload : @LoadCompressedNodeBasedGraph release_build
            (graph_file sample_fingerprint sample_edges sample_coordinates
             ++ [x2a; x2b])
          = inr {| edges := sample_edges; coordinates := sample_coordinates |})
    by (vm_compute; reflexivity).
  exact (@loaded_graph_encodes_to_file release_build _ _ Hload).
Defined.

(** X15: bytes that follow the coordinate section are ignored: a well-formed
    graph file with anything appended loads into the same graph. *)
Theorem load_graph_ignores_trailing_bytes `{Environment} (fp : list byte)
    (es : list CompressedNodeBasedGraphEdge) (cs : list Coordinate)
    (rest : list byte) :
  length fp = fingerprint_size -> fingerprint_valid fp = true ->
  Forall edge_ok es -> Forall coordinate_ok cs ->
  Z.of_nat (length es) < 2 ^ 64 -> Z.of_nat (length cs) < 2 ^ 64 ->
  LoadCompressedNodeBasedGraph (graph_file fp es cs ++ rest)
  = inr {| edges := es; coordinates := cs |}.
Proof.
  intros Hlen Hfp Hes Hcs Hne Hnn.
  unfold LoadCompressedNodeBasedGraph, graph_file.
  rewrite <- !app_assoc.
  rewrite open_reader_accepts by assumption.
  unfold CompressedNodeBasedGraph_read, io_bind.
  rewrite !ReadElementCount64_encode by (unfold is_u64; lia).
  rewrite (ReadInto_encode 8 decode_edge encode_edge edge_ok
             length_encode_edge decode_edge_encode);
    [| rewrite length_resize; apply Nat2Z.id | exact Hes].
  rewrite (ReadInto_encode 8 decode_coordinate encode_coordinate coordinate_ok
             length_encode_coordinate decode_coordinate_encode);
    [| rewrite length_resize; apply Nat2Z.id | exact Hcs].
  reflexivity.
Qed.

Lemma load_graph_ignores_trailing_bytes_witness :
  @LoadCompressedNodeBasedGraph release_build
    (graph_file sample_fingerprint sample_edges sample_coordinates ++ [x2a; x2b])
  = inr {| edges := sample_edges; coordinates := sample_coordinates |}.
Proof.
  apply (@load_graph_ignores_trailing_bytes release_build).
  - reflexivity.
  - reflexivity.
  - exact sample_edges_ok.
  - exact sample_coordinates_ok.
  - cbn. lia.
  - cbn. lia.
Defined.

(** ** More on the mapping loader *)

Lemma first_nodes_Some key k rs nodes :
  first_nodes key k rs = Some nodes ->
  exists r, r ∈ rs /\ key r = k /\ nodes = rec_nodes r.
Proof.
  unfold first_nodes. destruct (List.find _ rs) as [r|] eqn:Hf; [|discriminate].
  intros [= <-]. apply find_some in Hf as [Hin Hk].
  exists r. split; [now apply list_elem_of_In | split; [now apply Z.eqb_eq | reflexivity]].
Qed.

Lemma first_nodes_present key rs r :
  r ∈ rs -> is_Some (first_nodes key (key r) rs).
Proof.
  intros Hin. unfold first_nodes.
  destruct (List.find _ rs) as [r'|] eqn:Hf; [now eexists|].
  apply list_elem_of_In in Hin.
  pose proof (find_none _ _ Hf r Hin) as Hk. cbn in Hk.
  rewrite Z.eqb_refl in Hk. discriminate.
Qed.

Lemma first_nodes_None key k rs :
  first_nodes key k rs = None -> forall r, r ∈ rs -> key r <> k.
Proof.
  unfold first_nodes. destruct (List.find _ rs) as [r'|] eqn:Hf; [discriminate|].
  intros _ r Hin. apply list_elem_of_In in Hin.
  pose proof (find_none _ _ Hf r Hin) as Hk. cbn in Hk. now apply Z.eqb_neq.
Qed.

Lemma heads_loaded rs k :
  heads (foldl insert_record empty_mapping rs) !! k = first_nodes rec_head k rs.
Proof. rewrite heads_insert_records. cbn. now rewrite lookup_empty. Qed.

Lemma tails_loaded rs k :
  tails (foldl insert_record empty_mapping rs) !! k = first_nodes rec_tail k rs.
Proof. rewrite tails_insert_records. cbn. now rewrite lookup_empty. Qed.

(** X16: after a well-formed mapping file has been loaded, each table maps
    a key to the pair of the first chunk that carries it, and [Lookup]
    answers with the first chunk whose head is the key, else with the first
    chunk whose tail is the key, else as on a miss. *)
Theorem lookup_after_load_first_chunk `{Environment}
    (fp : list byte) (rs : list MappingRecord) :
  length fp = fingerprint_size -> fingerprint_valid fp = true ->
  Forall record_ok rs -> Z.of_nat (length rs) < 2 ^ 64 ->
  exists m,
    LoadNodeBasedGraphToEdgeBasedGraphMapping (mapping_file fp rs) = inr m
    /\ (forall k, heads m !! k = first_nodes rec_head k rs)
    /\ (forall k, tails m !! k = first_nodes rec_tail k rs)
    /\ forall k,
         Lookup m k =
         match first_nodes rec_head k rs with
         | Some nodes => Returned nodes
         | None =>
             match first_nodes rec_tail k rs with
             | Some nodes => Returned nodes
             | None =>
                 if assertions_enabled then AssertionFailed
                 else Returned {| u := SPECIAL_NODEID; v := SPECIAL_NODEID |}
             end
         end.
Proof.
  intros Hlen Hfp Hok Hcount.
  exists (foldl insert_record empty_mapping rs).
  split; [now apply load_mapping_file|].
  split; [apply heads_loaded | split; [apply tails_loaded|]].
  intros k. unfold Lookup. now rewrite heads_loaded, tails_loaded.
Qed.

Lemma sample_records_ok : Forall record_ok sample_records.
Proof. repeat constructor; cbn; lia. Qed.

Lemma lookup_after_load_first_chunk_witness :
  exists m,
    @LoadNodeBasedGraphToEdgeBasedGraphMapping release_build
      (mapping_file sample_fingerprint sample_records) = inr m
    /\ (forall k, heads m !! k = first_nodes rec_head k sample_records)
    /\ (forall k, tails m !! k = first_nodes rec_tail k sample_records)
    /\ forall k,
         @Lookup release_build m k =
         match first_nodes rec_head k sample_records with
         | Some nodes => Returned nodes
         | None =>
             match first_nodes rec_tail k sample_records with
             | Some nodes => Returned nodes
             | None => Returned {| u := 4294967295; v := 4294967295 |}
             end
         end.
Proof.
  apply (@lookup_after_load_first_chunk release_build sample_fingerprint
           sample_records).
  - reflexivity.
  - reflexivity.
  - exact sample_records_ok.
  - cbn. lia.
Defined.

(** X17: for every [EdgeID] that occurs in a loaded mapping file, as a head
    or as a tail, [Lookup] returns the pair of a chunk of the file that
    carries this id; it does not reach the assertion. *)
Theorem lookup_of_present_id_returns_a_chunk `{Environment}
    (fp : list byte) (rs : list MappingRecord) (r : MappingRecord) :
  length fp = fingerprint_size -> fingerprint_valid fp = true ->
  Forall record_ok rs -> Z.of_nat (length rs) < 2 ^ 64 ->
  r ∈ rs ->
  exists m,
    LoadNodeBasedGraphToEdgeBasedGraphMapping (mapping_file fp rs) = inr m
    /\ (exists r1, r1 ∈ rs /\ rec_head r1 = rec_head r
                   /\ Lookup m (rec_head r) = Returned (rec_nodes r1))
    /\ (exists r2, r2 ∈ rs
                   /\ (rec_head r2 = rec_tail r \/ rec_tail r2 = rec_tail r)
                   /\ Lookup m (rec_tail r) = Returned (rec_nodes r2)).
Proof.
  intros Hlen Hfp Hok Hcount Hin.
  exists (foldl insert_record empty_mapping rs).
  split; [now apply load_mapping_file | split].
  - destruct (first_nodes_present rec_head rs r Hin) as [nodes Hn].
    destruct (first_nodes_Some _ _ _ _ Hn) as (r1 & Hr1 & Hk & ->).
    exists r1. split; [exact Hr1 | split; [exact Hk|]].
    apply Lookup_heads. now rewrite heads_loaded.
  - destruct (first_nodes rec_head (rec_tail r) rs) as [nodes|] eqn:Hh.
    + destruct (first_nodes_Some _ _ _ _ Hh) as (r2 & Hr2 & Hk & ->).
      exists r2. split; [exact Hr2 | split; [now left|]].
      apply Lookup_heads. now rewrite heads_loaded.
    + destruct (first_nodes_present rec_tail rs r Hin) as [nodes Hn].
      destruct (first_nodes_Some _ _ _ _ Hn) as (r2 & Hr2 & Hk & ->).
      exists r2. split; [exact Hr2 | split; [now right|]].
      apply Lookup_tails; [now rewrite heads_loaded | now rewrite tails_loaded].
Qed.

Lemma lookup_of_present_id_returns_a_chunk_witness :
  exists m,
    @LoadNodeBasedGraphToEdgeBasedGraphMapping release_build
      (mapping_file sample_fingerprint sample_records) = inr m
    /\ (exists r1, r1 ∈ sample_records /\ rec_head r1 = 13
                   /\ @Lookup release_build m 13 = Returned (rec_nodes r1))
    /\ (exists r2, r2 ∈ sample_records
                   /\ (rec_head r2 = 10 \/ rec_tail r2 = 10)
                   /\ @Lookup release_build m 10 = Returned (rec_nodes r2)).
Proof.
  apply (@lookup_of_present_id_returns_a_chunk release_build sample_fingerprint
           sample_records
           {| rec_u := 5; rec_v := 6; rec_head := 13; rec_tail := 10 |}).
  - reflexivity.
  - reflexivity.
  - exact sample_records_ok.
  - cbn. lia.
  - unfold sample_records. rewrite !elem_of_cons. auto.
Defined.

Lemma dom_unordered_map_insert k x (m : gmap Z NodeBasedNodes) :
  dom (unordered_map_insert k x m) = {[k]} ∪ dom m.
Proof.
  unfold unordered_map_insert. destruct (m !! k) as [y|] eqn:Hk.
  - symmetry. apply subseteq_union_1_L, singleton_subseteq_l, elem_of_dom. eauto.
  - apply dom_insert_L.
Qed.

Lemma size_unordered_map_insert k x (m : gmap Z NodeBasedNodes) :
  (size (unordered_map_insert k x m) <= S (size m))%nat.
Proof.
  unfold unordered_map_insert. destruct (m !! k) as [y|] eqn:Hk; [lia|].
  rewrite map_size_insert_None by exact Hk. lia.
Qed.

Lemma insert_records_keys rs m :
  dom (heads (foldl insert_record m rs))
  = list_to_set (rec_head <$> rs) ∪ dom (heads m)
  /\ dom (tails (foldl insert_record m rs))
     = list_to_set (rec_tail <$> rs) ∪ dom (tails m)
  /\ (size (heads (foldl insert_record m rs)) <= length rs + size (heads m))%nat
  /\ (size (tails (foldl insert_record m rs)) <= length rs + size (tails m))%nat.
Proof.
  revert m. induction rs as [|r rs IH]; intros m; cbn [foldl].
  - cbn. rewrite !(left_id_L ∅ (∪)). repeat split; lia.
  - destruct (IH (insert_record m r)) as (H1 & H2 & H3 & H4).
    cbn [insert_record heads tails] in *.
    rewrite dom_unordered_map_insert in H1, H2.
    pose proof (size_unordered_map_insert (rec_head r) (rec_nodes r) (heads m)).
    pose proof (size_unordered_map_insert (rec_tail r) (rec_nodes r) (tails m)).
    rewrite H1, H2. cbn [fmap list_fmap length list_to_set].
    rewrite !(assoc_L (∪)).
    rewrite (comm_L (∪) {[rec_head r]}), (comm_L (∪) {[rec_tail r]}).
    repeat split; lia.
Qed.

(** X18: the keys of the heads table are exactly the heads of the chunks of
    the file and the keys of the tails table exactly their tails; neither
    table has more entries than the file has chunks. *)
Theorem loaded_tables_keys `{Environment}
    (fp : list byte) (rs : list MappingRecord) :
  length fp = fingerprint_size -> fingerprint_valid fp = true ->
  Forall record_ok rs -> Z.of_nat (length rs) < 2 ^ 64 ->
  exists m,
    LoadNodeBasedGraphToEdgeBasedGraphMapping (mapping_file fp rs) = inr m
    /\ dom (heads m) = list_to_set (rec_head <$> rs)
    /\ dom (tails m) = list_to_set (rec_tail <$> rs)
    /\ (size (heads m) <= length rs)%nat
    /\ (size (tails m) <= length rs)%nat.
Proof.
  intros Hlen Hfp Hok Hcount.
  exists (foldl insert_record empty_mapping rs).
  split; [now apply load_mapping_file|].
  destruct (insert_records_keys rs empty_mapping) as (H1 & H2 & H3 & H4).
  cbn [empty_mapping heads tails] in *.
  rewrite dom_empty_L, map_size_empty in *.
  rewrite H1, H2, !(right_id_L ∅ (∪)). repeat split; lia.
Qed.

Lemma loaded_tables_keys_witness :
  exists m,
    @LoadNodeBasedGraphToEdgeBasedGraphMapping release_build
      (mapping_file sample_fingerprint sample_records) = inr m
    /\ dom (heads m) = list_to_set (rec_head <$> sample_records)
    /\ dom (tails m) = list_to_set (rec_tail <$> sample_records)
    /\ (size (heads m) <= length sample_records)%nat
    /\ (size (tails m) <= length sample_records)%nat.
Proof.
  apply (@loaded_tables_keys release_build sample_fingerprint sample_records).
  - reflexivity.
  - reflexivity.
  - exact sample_records_ok.
  - cbn. lia.
Defined.

Lemma ReadOne_u32_inr s z s' :
  ReadOne_u32 s = inr (z, s') -> (4 <= length s)%nat /\ s' = drop 4 s.
Proof.
  unfold ReadOne_u32, io_bind, io_ret.
  destruct (ReadBytes 4 s) as [e | [a s'']] eqn:Hr; [discriminate|].
  apply ReadBytes_inr in Hr as (Hlen & -> & ->).
  intros [= <- <-]. auto.
Qed.

Lemma read_mappings_enough n m s :
  (n * 16 <= length s)%nat ->
  exists m', read_mappings n m s = inr (m', drop (n * 16) s).
Proof.
  revert m s. induction n as [|n IH]; intros m s Hlen; cbn [read_mappings].
  - exists m. reflexivity.
  - unfold io_bind.
    rewrite ReadOne_u32_enough by lia.
    rewrite ReadOne_u32_enough by (rewrite length_drop; lia).
    rewrite ReadOne_u32_enough by (rewrite !length_drop; lia).
    rewrite ReadOne_u32_enough by (rewrite !length_drop; lia).
    rewrite !drop_drop.
    match goal with
    | |- exists m', read_mappings n ?m0 ?s0 = _ =>
        destruct (IH m0 s0) as [m' Hm']
    end.
    + rewrite length_drop. lia.
    + exists m'. rewrite Hm', drop_drop. repeat f_equal; lia.
Qed.

Lemma read_mappings_inr n m s m' s' :
  read_mappings n m s = inr (m', s') ->
  (n * 16 <= length s)%nat /\ s' = drop (n * 16) s.
Proof.
  revert m s. induction n as [|n IH]; intros m s; cbn [read_mappings].
  - unfold io_ret. intros [= <- <-]. split; [lia | reflexivity].
  - unfold io_bind at 1.
    destruct (ReadOne_u32 s) as [e | [z1 s1]] eqn:H1; [discriminate|].
    apply ReadOne_u32_inr in H1 as [L1 ->].
    unfold io_bind at 1.
    destruct (ReadOne_u32 _) as [e | [z2 s2]] eqn:H2; [discriminate|].
    apply ReadOne_u32_inr in H2 as [L2 ->].
    unfold io_bind at 1.
    destruct (ReadOne_u32 _) as [e | [z3 s3]] eqn:H3; [discriminate|].
    apply ReadOne_u32_inr in H3 as [L3 ->].
    unfold io_bind at 1.
    destruct (ReadOne_u32 _) as [e | [z4 s4]] eqn:H4; [discriminate|].
    apply ReadOne_u32_inr in H4 as [L4 ->].
    intros Hrec. apply IH in Hrec as [Ln ->].
    rewrite !length_drop in *. rewrite !drop_drop. split; [lia | f_equal; lia].
Qed.

Lemma load_mapping_accepts_iff `{Environment} (file : list byte) :
  (exists m, LoadNodeBasedGraphToEdgeBasedGraphMapping file = inr m) <->
  (fingerprint_size + 8 <= length file)%nat
  /\ fingerprint_valid (take fingerprint_size file) = true
  /\ Z.of_nat fingerprint_size + 8
     + 16 * le_decode (take 8 (drop fingerprint_size file))
     <= Z.of_nat (length file).
Proof.
  pose proof (le_decode_nonneg (take 8 (drop fingerprint_size file))) as Hnn.
  unfold LoadNodeBasedGraphToEdgeBasedGraphMapping. split.
  - intros [m Hload].
    destruct (open_reader file) as [e | s] eqn:Hopen; [discriminate|].
    apply open_reader_inr in Hopen as (Hlen & Hvalid & ->).
    unfold NodeBasedGraphToEdgeBasedGraphMapping_read, io_bind in Hload.
    destruct (ReadElementCount64 _) as [e | [n s1]] eqn:Hc; [discriminate|].
    apply ReadElementCount64_inr in Hc as (Hl8 & -> & ->).
    destruct (read_mappings _ _ _) as [e | [m' s2]] eqn:Hr; [discriminate|].
    apply read_mappings_inr in Hr as [Hl _].
    rewrite !length_drop in *. repeat split; try assumption; lia.
  - intros (Hlen & Hvalid & Hsize).
    rewrite open_reader_enough by (assumption || lia).
    unfold NodeBasedGraphToEdgeBasedGraphMapping_read, io_bind.
    rewrite ReadElementCount64_enough by (rewrite length_drop; lia).
    match goal with
    | |- context [read_mappings ?n ?m0 ?s0] =>
        destruct (read_mappings_enough n m0 s0) as [m' Hm']
    end.
    + rewrite !length_drop. lia.
    + rewrite Hm'. now exists m'.
Qed.

Lemma ReadOne_u32_app b s :
  length b = 4%nat -> ReadOne_u32 (b ++ s) = inr (le_decode b, s).
Proof.
  intros Hb. unfold ReadOne_u32, io_bind, io_ret.
  now rewrite ReadBytes_app' by exact Hb.
Qed.

Lemma ReadElementCount64_app b s :
  length b = 8%nat -> ReadElementCount64 (b ++ s) = inr (le_decode b, s).
Proof.
  intros Hb. unfold ReadElementCount64, io_bind, io_ret.
  now rewrite ReadBytes_app' by exact Hb.
Qed.

(** The loop consumes 16 bytes for each chunk and hands on what follows
    untouched; the tables depend on the consumed bytes alone. *)
Lemma read_mappings_prefix n :
  forall m0 a, length a = (n * 16)%nat ->
  exists m', forall t, read_mappings n m0 (a ++ t) = inr (m', t).
Proof.
  induction n as [|n IH]; intros m0 a Ha.
  - destruct a; [|discriminate]. exists m0. reflexivity.
  - rewrite <- (take_drop 4 a), <- (take_drop 4 (drop 4 a)),
      <- (take_drop 4 (drop 4 (drop 4 a))),
      <- (take_drop 4 (drop 4 (drop 4 (drop 4 a)))).
    set (b1 := take 4 a). set (b2 := take 4 (drop 4 a)).
    set (b3 := take 4 (drop 4 (drop 4 a))).
    set (b4 := take 4 (drop 4 (drop 4 (drop 4 a)))).
    set (a' := drop 4 (drop 4 (drop 4 (drop 4 a)))).
    assert (H1 : length b1 = 4%nat) by (subst b1; rewrite length_take; lia).
    assert (H2 : length b2 = 4%nat)
      by (subst b2; rewrite length_take, !length_drop; lia).
    assert (H3 : length b3 = 4%nat)
      by (subst b3; rewrite length_take, !length_drop; lia).
    assert (H4 : length b4 = 4%nat)
      by (subst b4; rewrite length_take, !length_drop; lia).
    assert (Ha' : length a' = (n * 16)%nat)
      by (subst a'; rewrite !length_drop; lia).
    destruct (IH {| heads := unordered_map_insert (le_decode b3)
                               {| u := le_decode b1; v := le_decode b2 |}
                               (heads m0);
                    tails := unordered_map_insert (le_decode b4)
                               {| u := le_decode b1; v := le_decode b2 |}
                               (tails m0) |} a' Ha') as [m' Hm'].
    exists m'. intros t. rewrite <- !app_assoc.
    cbn [read_mappings]. unfold io_bind.
    rewrite (ReadOne_u32_app b1) by exact H1.
    rewrite (ReadOne_u32_app b2) by exact H2.
    rewrite (ReadOne_u32_app b3) by exact H3.
    rewrite (ReadOne_u32_app b4) by exact H4.
    apply Hm'.
Qed.

(** A file cut into header, count and chunks: the loader's answer is fixed
    by these three parts, whatever follows them. *)
Lemma load_mapping_parts `{Environment} (fp cnt a : list byte) :
  length fp = fingerprint_size -> fingerprint_valid fp = true ->
  length cnt = 8%nat -> length a = (Z.to_nat (le_decode cnt) * 16)%nat ->
  exists m, forall t,
    LoadNodeBasedGraphToEdgeBasedGraphMapping (fp ++ cnt ++ a ++ t) = inr m.
Proof.
  intros Hfp Hvalid Hcnt Ha.
  destruct (read_mappings_prefix (Z.to_nat (le_decode cnt))
              {| heads := ∅; tails := ∅ |} a Ha) as [m Hm].
  exists m. intros t.
  unfold LoadNodeBasedGraphToEdgeBasedGraphMapping.
  rewrite open_reader_accepts by assumption.
  unfold NodeBasedGraphToEdgeBasedGraphMapping_read, io_bind.
  rewrite ReadElementCount64_app by exact Hcnt.
  now rewrite Hm.
Qed.

(** X19: the mapping loader accepts a file exactly when its fingerprint
    passes and, behind the count, it holds 16 bytes for each chunk the count
    declares; bytes after the last chunk are not read: the tables loaded
    from a file are those loaded from its header, count and declared chunks
    followed by any other bytes. *)
Theorem load_mapping_succeeds_iff `{Environment} (file : list byte) :
  ((exists m, LoadNodeBasedGraphToEdgeBasedGraphMapping file = inr m) <->
   (fingerprint_size + 8 <= length file)%nat
   /\ fingerprint_valid (take fingerprint_size file) = true
   /\ Z.of_nat fingerprint_size + 8
      + 16 * le_decode (take 8 (drop fingerprint_size file))
      <= Z.of_nat (length file))
  /\ forall m rest,
       LoadNodeBasedGraphToEdgeBasedGraphMapping file = inr m ->
       LoadNodeBasedGraphToEdgeBasedGraphMapping
         (take (fingerprint_size + 8
                + Z.to_nat (le_decode (take 8 (drop fingerprint_size file)))
                  * 16) file ++ rest)
       = inr m.
Proof.
  split; [apply load_mapping_accepts_iff|].
  intros m rest Hload.
  pose proof (le_decode_nonneg (take 8 (drop fingerprint_size file))) as Hnn.
  destruct (proj1 (load_mapping_accepts_iff file)) as (Hlen & Hvalid & Hsize);
    [now exists m|].
  set (n := Z.to_nat (le_decode (take 8 (drop fingerprint_size file)))) in *.
  set (fp := take fingerprint_size file).
  set (cnt := take 8 (drop fingerprint_size file)).
  set (a := take (n * 16) (drop 8 (drop fingerprint_size file))).
  set (t := drop (n * 16) (drop 8 (drop fingerprint_size file))).
  assert (Hfile : file = fp ++ cnt ++ a ++ t).
  { subst fp cnt a t. now rewrite !take_drop. }
  assert (Hfp : length fp = fingerprint_size)
    by (subst fp; rewrite length_take; lia).
  assert (Hcnt : length cnt = 8%nat)
    by (subst cnt; rewrite length_take, length_drop; lia).
  assert (Ha : length a = (n * 16)%nat)
    by (subst a; rewrite length_take, !length_drop; lia).
  assert (Htake : take (fingerprint_size + 8 + n * 16) file = fp ++ cnt ++ a).
  { rewrite Hfile at 1. rewrite !app_assoc.
    rewrite take_app_length'; [reflexivity|].
    rewrite !length_app. lia. }
  rewrite Htake, <- !app_assoc.
  destruct (load_mapping_parts fp cnt a Hfp Hvalid Hcnt Ha) as [m' Hm'].
  rewrite Hm'. rewrite Hfile, Hm' in Hload. exact Hload.
Qed.

Lemma load_mapping_succeeds_iff_witness :
  @LoadNodeBasedGraphToEdgeBasedGraphMapping release_build
    (take (@fingerprint_size release_build + 8
           + Z.to_nat
               (le_decode
                  (take 8 (drop (@fingerprint_size release_build)
                             (mapping_file sample_fingerprint
                                sample_records))))
             * 16)
       (mapping_file sample_fingerprint sample_records)
     ++ [Byte.xff; Byte.x00; Byte.x2a])
  = inr (foldl insert_record empty_mapping sample_records).
Proof.
  apply (proj2 (@load_mapping_succeeds_iff release_build
                  (mapping_file sample_fingerprint sample_records))).
  apply (@load_mapping_file release_build sample_fingerprint sample_records).
  - reflexivity.
  - reflexivity.
  - exact sample_records_ok.
  - cbn. lia.
Defined.

(** ** The grid generator *)

Lemma grid_id_range rows columns id_base r c :
  0 <= id_base -> id_base + rows * columns < 2 ^ 31 ->
  0 <= r < rows -> 0 <= c < columns ->
  id_base <= GraphGenerator.get_id id_base columns r c
  < id_base + rows * columns
  /\ u32 (GraphGenerator.get_id id_base columns r c)
     = GraphGenerator.get_id id_base columns r c.
Proof.
  intros Hb Hmax Hr Hc. unfold GraphGenerator.get_id.
  assert (Hlo : 0 <= r * columns) by nia.
  assert (Hhi : r * columns + c < rows * columns) by nia.
  split; [lia|]. apply u32_small. unfold is_u32. lia.
Qed.

(** In range, no candidate is rejected by [valid] and no cast changes an
    id: a cell gets an edge to each neighbour the grid has. *)
Lemma cell_edges_in_range rows columns id_base r c :
  0 <= id_base -> id_base + rows * columns < 2 ^ 31 ->
  0 <= r < rows -> 0 <= c < columns ->
  GraphGenerator.cell_edges rows columns id_base r c =
  (if 0 <? c then [GraphGenerator.grid_edge id_base columns r c r (c - 1)] else [])
  ++ (if c + 1 <? columns
      then [GraphGenerator.grid_edge id_base columns r c r (c + 1)] else [])
  ++ (if 0 <? r then [GraphGenerator.grid_edge id_base columns r c (r - 1) c] else [])
  ++ (if r + 1 <? rows
      then [GraphGenerator.grid_edge id_base columns r c (r + 1) c] else []).
Proof.
  intros Hb Hmax Hr Hc.
  unfold GraphGenerator.cell_edges, GraphGenerator.grid_edge, GraphGenerator.valid.
  destruct (grid_id_range rows columns id_base r c Hb Hmax Hr Hc) as [_ ->].
  f_equal; [|f_equal; [|f_equal]].
  - destruct (Z.ltb_spec 0 c); [|reflexivity].
    destruct (grid_id_range rows columns id_base r (c - 1) Hb Hmax Hr) as [_ ->];
      [lia | reflexivity].
  - destruct (Z.ltb_spec (c + 1) columns); [|reflexivity].
    destruct (grid_id_range rows columns id_base r (c + 1) Hb Hmax Hr) as [Hin ->];
      [lia|].
    destruct (Z.leb_spec id_base (GraphGenerator.get_id id_base columns r (c + 1)));
      [|lia].
    destruct (Z.ltb_spec (GraphGenerator.get_id id_base columns r (c + 1))
                (id_base + rows * columns)); [reflexivity | lia].
  - destruct (Z.ltb_spec 0 r); [|reflexivity].
    destruct (grid_id_range rows columns id_base (r - 1) c Hb Hmax) as [Hin ->];
      [lia | lia |].
    destruct (Z.leb_spec id_base (GraphGenerator.get_id id_base columns (r - 1) c));
      [|lia].
    destruct (Z.ltb_spec (GraphGenerator.get_id id_base columns (r - 1) c)
                (id_base + rows * columns)); [reflexivity | lia].
  - destruct (Z.ltb_spec (r + 1) rows); [|reflexivity].
    destruct (grid_id_range rows columns id_base (r + 1) c Hb Hmax) as [Hin ->];
      [lia | lia |].
    destruct (Z.leb_spec id_base (GraphGenerator.get_id id_base columns (r + 1) c));
      [|lia].
    destruct (Z.ltb_spec (GraphGenerator.get_id id_base columns (r + 1) c)
                (id_base + rows * columns)); [reflexivity | lia].
Qed.

Lemma elem_of_makeGridEdges rows columns id_base e :
  e ∈ GraphGenerator.makeGridEdges rows columns id_base <->
  exists r c, 0 <= r < rows /\ 0 <= c < columns
              /\ e ∈ GraphGenerator.cell_edges rows columns id_base r c.
Proof.
  unfold GraphGenerator.makeGridEdges.
  rewrite list_elem_of_In, in_flat_map. split.
  - intros (r & Hr & Hin). apply in_flat_map in Hin as (c & Hc & Hin).
    apply list_elem_of_In, elem_of_seqZ in Hr.
    apply list_elem_of_In, elem_of_seqZ in Hc.
    exists r, c. rewrite list_elem_of_In. repeat split; try lia. exact Hin.
  - intros (r & c & Hr & Hc & Hin). exists r. split.
    + apply list_elem_of_In, elem_of_seqZ. lia.
    + apply in_flat_map. exists c. split.
      * apply list_elem_of_In, elem_of_seqZ. lia.
      * now apply list_elem_of_In.
Qed.

Lemma elem_of_cell_edges rows columns id_base r c e :
  0 <= id_base -> id_base + rows * columns < 2 ^ 31 ->
  0 <= r < rows -> 0 <= c < columns ->
  e ∈ GraphGenerator.cell_edges rows columns id_base r c <->
  exists r' c', 0 <= r' < rows /\ 0 <= c' < columns
                /\ GraphGenerator.adjacent r c r' c'
                /\ e = GraphGenerator.grid_edge id_base columns r c r' c'.
Proof.
  intros Hb Hmax Hr Hc. rewrite cell_edges_in_range by assumption.
  unfold GraphGenerator.adjacent. rewrite !elem_of_app. split.
  - intros [He | [He | [He | He]]].
    + destruct (Z.ltb_spec 0 c); [|now apply elem_of_nil in He].
      apply list_elem_of_singleton in He. exists r, (c - 1). repeat split; auto; lia.
    + destruct (Z.ltb_spec (c + 1) columns); [|now apply elem_of_nil in He].
      apply list_elem_of_singleton in He. exists r, (c + 1). repeat split; auto; lia.
    + destruct (Z.ltb_spec 0 r); [|now apply elem_of_nil in He].
      apply list_elem_of_singleton in He. exists (r - 1), c. repeat split; auto; lia.
    + destruct (Z.ltb_spec (r + 1) rows); [|now apply elem_of_nil in He].
      apply list_elem_of_singleton in He. exists (r + 1), c. repeat split; auto; lia.
  - intros (r' & c' & Hr' & Hc' & Hadj & ->).
    destruct Hadj as [[-> [-> | ->]] | [-> [-> | ->]]].
    + left. destruct (Z.ltb_spec 0 c); [|lia]. now apply list_elem_of_singleton.
    + right; left. destruct (Z.ltb_spec (c + 1) columns); [|lia].
      now apply list_elem_of_singleton.
    + right; right; left. destruct (Z.ltb_spec 0 r); [|lia].
      now apply list_elem_of_singleton.
    + right; right; right. destruct (Z.ltb_spec (r + 1) rows); [|lia].
      now apply list_elem_of_singleton.
Qed.

Lemma elem_of_grid rows columns id_base e :
  0 <= id_base -> id_base + rows * columns < 2 ^ 31 ->
  e ∈ GraphGenerator.makeGridEdges rows columns id_base <->
  exists r c r' c',
    0 <= r < rows /\ 0 <= c < columns /\ 0 <= r' < rows /\ 0 <= c' < columns
    /\ GraphGenerator.adjacent r c r' c'
    /\ e = GraphGenerator.grid_edge id_base columns r c r' c'.
Proof.
  intros Hb Hmax. rewrite elem_of_makeGridEdges. split.
  - intros (r & c & Hr & Hc & Hin).
    apply elem_of_cell_edges in Hin as (r' & c' & Hr' & Hc' & Hadj & He);
      try assumption.
    exists r, c, r', c'. repeat split; assumption || lia.
  - intros (r & c & r' & c' & Hr & Hc & Hr' & Hc' & Hadj & He).
    exists r, c. split; [exact Hr | split; [exact Hc|]].
    apply elem_of_cell_edges; try assumption. exists r', c'.
    repeat split; assumption || lia.
Qed.

(** X20: [makeGridEdges] returns exactly the edges, with additional data 1,
    between cells of the grid that are neighbours in a row or a column;
    the check [valid] never drops one and no id is changed by the cast. *)
Theorem grid_edges_are_neighbour_pairs (rows columns id_base : Z)
    (e : GraphGenerator.EdgeWithSomeAdditionalData) :
  0 <= id_base -> id_base + rows * columns < 2 ^ 31 ->
  e ∈ GraphGenerator.makeGridEdges rows columns id_base <->
  exists r c r' c',
    0 <= r < rows /\ 0 <= c < columns /\ 0 <= r' < rows /\ 0 <= c' < columns
    /\ GraphGenerator.adjacent r c r' c'
    /\ e = {| GraphGenerator.source := GraphGenerator.get_id id_base columns r c;
              GraphGenerator.target := GraphGenerator.get_id id_base columns r' c';
              GraphGenerator.important_data := 1 |}.
Proof. intros Hb Hmax. now apply elem_of_grid. Qed.

Lemma grid_edges_are_neighbour_pairs_witness :
  {| GraphGenerator.source := 5; GraphGenerator.target := 9;
     GraphGenerator.important_data := 1 |}
  ∈ GraphGenerator.makeGridEdges 4 4 0 <->
  exists r c r' c',
    0 <= r < 4 /\ 0 <= c < 4 /\ 0 <= r' < 4 /\ 0 <= c' < 4
    /\ GraphGenerator.adjacent r c r' c'
    /\ {| GraphGenerator.source := 5; GraphGenerator.target := 9;
          GraphGenerator.important_data := 1 |}
       = {| GraphGenerator.source := GraphGenerator.get_id 0 4 r c;
            GraphGenerator.target := GraphGenerator.get_id 0 4 r' c';
            GraphGenerator.important_data := 1 |}.
Proof.
  apply (grid_edges_are_neighbour_pairs 4 4 0); lia.
Defined.

(** X21: the grid is undirected: with every edge the list holds the edge
    in the opposite direction; and no edge is a loop. *)
Theorem grid_edges_symmetric (rows columns id_base : Z)
    (e : GraphGenerator.EdgeWithSomeAdditionalData) :
  0 <= id_base -> id_base + rows * columns < 2 ^ 31 ->
  e ∈ GraphGenerator.makeGridEdges rows columns id_base ->
  {| GraphGenerator.source := GraphGenerator.target e;
     GraphGenerator.target := GraphGenerator.source e;
     GraphGenerator.important_data := 1 |}
  ∈ GraphGenerator.makeGridEdges rows columns id_base
  /\ GraphGenerator.source e <> GraphGenerator.target e.
Proof.
  intros Hb Hmax Hin.
  apply elem_of_grid in Hin
    as (r & c & r' & c' & Hr & Hc & Hr' & Hc' & Hadj & ->); try assumption.
  cbn [GraphGenerator.grid_edge GraphGenerator.source GraphGenerator.target].
  split.
  - apply elem_of_grid; try assumption. exists r', c', r, c.
    repeat split; try lia.
    unfold GraphGenerator.adjacent in *. lia.
  - unfold GraphGenerator.get_id, GraphGenerator.adjacent in *. nia.
Qed.

Lemma grid_4x4_edge_5_9 :
  {| GraphGenerator.source := 5; GraphGenerator.target := 9;
     GraphGenerator.important_data := 1 |}
  ∈ GraphGenerator.makeGridEdges 4 4 0.
Proof.
  apply elem_of_grid; [lia | lia |]. exists 1, 1, 2, 1.
  repeat split; try lia. unfold GraphGenerator.adjacent. lia.
Qed.

Lemma grid_edges_symmetric_witness :
  {| GraphGenerator.source := 9; GraphGenerator.target := 5;
     GraphGenerator.important_data := 1 |}
  ∈ GraphGenerator.makeGridEdges 4 4 0
  /\ 5 <> 9.
Proof.
  assert (Hb : 0 <= 0) by lia.
  assert (Hmax : 0 + 4 * 4 < 2 ^ 31) by lia.
  exact (grid_edges_symmetric 4 4 0 _ Hb Hmax grid_4x4_edge_5_9).
Defined.

(** X22: every endpoint of an edge of the grid is one of the
    [rows * columns] ids that start at [id_base]. *)
Theorem grid_edges_endpoints_in_range (rows columns id_base : Z)
    (e : GraphGenerator.EdgeWithSomeAdditionalData) :
  0 <= id_base -> id_base + rows * columns < 2 ^ 31 ->
  e ∈ GraphGenerator.makeGridEdges rows columns id_base ->
  id_base <= GraphGenerator.source e < id_base + rows * columns
  /\ id_base <= GraphGenerator.target e < id_base + rows * columns.
Proof.
  intros Hb Hmax Hin.
  apply elem_of_grid in Hin
    as (r & c & r' & c' & Hr & Hc & Hr' & Hc' & _ & ->); try assumption.
  cbn [GraphGenerator.grid_edge GraphGenerator.source GraphGenerator.target].
  split.
  - now apply grid_id_range.
  - now apply grid_id_range.
Qed.

Lemma grid_edges_endpoints_in_range_witness :
  0 <= 5 < 0 + 4 * 4 /\ 0 <= 9 < 0 + 4 * 4.
Proof.
  assert (Hb : 0 <= 0) by lia.
  assert (Hmax : 0 + 4 * 4 < 2 ^ 31) by lia.
  exact (grid_edges_endpoints_in_range 4 4 0 _ Hb Hmax grid_4x4_edge_5_9).
Defined.

(** ** Counting and order of the grid edges *)

Lemma sumZ_nil f : sumZ f [] = 0.
Proof. reflexivity. Qed.

Lemma sumZ_cons f x l : sumZ f (x :: l) = f x + sumZ f l.
Proof. reflexivity. Qed.

Lemma length_flat_map_sumZ {A} (g : Z -> list A) l :
  Z.of_nat (length (flat_map g l)) = sumZ (fun x => Z.of_nat (length (g x))) l.
Proof.
  induction l as [|x l IH]; cbn [flat_map]; [reflexivity|].
  rewrite sumZ_cons, length_app, Nat2Z.inj_add, IH. reflexivity.
Qed.

Lemma sumZ_ext f g l : (forall x, x ∈ l -> f x = g x) -> sumZ f l = sumZ g l.
Proof.
  induction l as [|x l IH]; intros Hfg; [reflexivity|].
  rewrite !sumZ_cons, Hfg by apply list_elem_of_here. f_equal.
  apply IH. intros y Hy. apply Hfg. now apply list_elem_of_further.
Qed.

Lemma sumZ_add f g l : sumZ (fun x => f x + g x) l = sumZ f l + sumZ g l.
Proof.
  induction l as [|x l IH]; [reflexivity|].
  rewrite !sumZ_cons, IH. lia.
Qed.

Lemma sumZ_const k l : sumZ (fun _ => k) l = k * Z.of_nat (length l).
Proof.
  induction l as [|x l IH]; [rewrite sumZ_nil; cbn; lia|].
  rewrite sumZ_cons, IH. cbn [length]. lia.
Qed.

Lemma sumZ_app f l1 l2 : sumZ f (l1 ++ l2) = sumZ f l1 + sumZ f l2.
Proof.
  induction l1 as [|x l1 IH]; cbn [app]; [rewrite sumZ_nil; lia|].
  rewrite !sumZ_cons, IH. lia.
Qed.

(** All cells of a row but the first have a left neighbour. *)
Lemma sumZ_has_left n :
  0 < n -> sumZ (fun c => if 0 <? c then 1 else 0) (seqZ 0 n) = n - 1.
Proof.
  intros Hn. rewrite seqZ_cons by exact Hn. rewrite sumZ_cons.
  rewrite (sumZ_ext _ (fun _ => 1)).
  - rewrite sumZ_const, length_seqZ. cbn. lia.
  - intros c Hc. apply elem_of_seqZ in Hc. destruct (Z.ltb_spec 0 c); lia.
Qed.

(** All cells of a row but the last have a right neighbour. *)
Lemma sumZ_has_right n :
  0 < n -> sumZ (fun c => if c + 1 <? n then 1 else 0) (seqZ 0 n) = n - 1.
Proof.
  intros Hn.
  assert (Hsplit : seqZ 0 n = seqZ 0 (n - 1) ++ [n - 1]).
  { replace (seqZ 0 n) with (seqZ 0 ((n - 1) + 1)) by (f_equal; lia).
    rewrite seqZ_app by lia. reflexivity. }
  rewrite Hsplit, sumZ_app.
  rewrite (sumZ_ext _ (fun _ => 1) (seqZ 0 (n - 1))).
  - rewrite sumZ_const, length_seqZ, sumZ_cons, sumZ_nil.
    destruct (Z.ltb_spec (n - 1 + 1) n); lia.
  - intros c Hc. apply elem_of_seqZ in Hc. destruct (Z.ltb_spec (c + 1) n); lia.
Qed.

Lemma length_cell_edges rows columns id_base r c :
  0 <= id_base -> id_base + rows * columns < 2 ^ 31 ->
  0 <= r < rows -> 0 <= c < columns ->
  Z.of_nat (length (GraphGenerator.cell_edges rows columns id_base r c)) =
  ((if 0 <? c then 1 else 0) + (if c + 1 <? columns then 1 else 0))
  + ((if 0 <? r then 1 else 0) + (if r + 1 <? rows then 1 else 0)).
Proof.
  intros Hb Hmax Hr Hc. rewrite cell_edges_in_range by assumption.
  rewrite !length_app.
  destruct (0 <? c), (c + 1 <? columns), (0 <? r), (r + 1 <? rows);
    reflexivity.
Qed.

Lemma length_grid_row rows columns id_base r :
  0 <= id_base -> id_base + rows * columns < 2 ^ 31 ->
  0 <= r < rows -> 0 < columns ->
  sumZ (fun c => Z.of_nat (length
          (GraphGenerator.cell_edges rows columns id_base r c)))
       (seqZ 0 columns)
  = 2 * (columns - 1)
    + columns * ((if 0 <? r then 1 else 0) + (if r + 1 <? rows then 1 else 0)).
Proof.
  intros Hb Hmax Hr Hc.
  rewrite (sumZ_ext _ (fun c =>
    ((if 0 <? c then 1 else 0) + (if c + 1 <? columns then 1 else 0))
    + ((if 0 <? r then 1 else 0) + (if r + 1 <? rows then 1 else 0)))).
  - rewrite sumZ_add, sumZ_add, sumZ_has_left, sumZ_has_right by exact Hc.
    rewrite sumZ_const, length_seqZ. lia.
  - intros c Hin. apply elem_of_seqZ in Hin.
    apply length_cell_edges; assumption || lia.
Qed.

(** X23: a grid of [rows] by [columns] cells has
    [2 * (rows * (columns - 1) + columns * (rows - 1))] edges; a grid
    without rows or without columns has none. *)
Theorem grid_edge_count (rows columns id_base : Z) :
  0 <= id_base -> id_base + rows * columns < 2 ^ 31 ->
  0 <= rows -> 0 <= columns ->
  length (GraphGenerator.makeGridEdges rows columns id_base)
  = Z.to_nat (2 * (rows * (columns - 1) + columns * (rows - 1))).
Proof.
  intros Hb Hmax Hrows Hcols.
  apply Nat2Z.inj. unfold GraphGenerator.makeGridEdges.
  rewrite length_flat_map_sumZ.
  destruct (Z.eq_dec columns 0) as [-> | Hc0].
  { rewrite (sumZ_ext _ (fun _ => 0)) by reflexivity.
    rewrite sumZ_const. lia. }
  destruct (Z.eq_dec rows 0) as [-> | Hr0].
  { change (seqZ 0 0) with (@nil Z). rewrite sumZ_nil. lia. }
  rewrite (sumZ_ext _ (fun r =>
    2 * (columns - 1)
    + columns * ((if 0 <? r then 1 else 0) + (if r + 1 <? rows then 1 else 0)))).
  - rewrite sumZ_add, sumZ_const, length_seqZ.
    rewrite (sumZ_ext (fun r => columns * _)
               (fun r => columns * (if 0 <? r then 1 else 0)
                         + columns * (if r + 1 <? rows then 1 else 0)))
      by (intros; lia).
    rewrite sumZ_add.
    assert (Hscale : forall (f : Z -> Z) l,
              sumZ (fun r => columns * f r) l = columns * sumZ f l).
    { intros f l. induction l as [|x l IH]; [rewrite !sumZ_nil; lia|].
      rewrite !sumZ_cons, IH. lia. }
    rewrite !Hscale, sumZ_has_left, sumZ_has_right by lia.
    rewrite !Z2Nat.id by nia. ring.
  - intros r Hin. apply elem_of_seqZ in Hin.
    rewrite length_flat_map_sumZ.
    apply length_grid_row; assumption || lia.
Qed.

Lemma grid_edge_count_witness :
  length (GraphGenerator.makeGridEdges 4 4 0) = 48%nat.
Proof.
  apply (grid_edge_count 4 4 0); lia.
Defined.

Lemma StronglySorted_same_key {B} (key : B -> Z) (k : Z) (l : list B) :
  (forall e, e ∈ l -> key e = k) ->
  StronglySorted (fun a b => key a <= key b) l.
Proof.
  induction l as [|x l IH]; intros Hk; constructor.
  - apply IH. intros e He. apply Hk. now apply list_elem_of_further.
  - apply Forall_forall. intros e He.
    rewrite (Hk x) by apply list_elem_of_here.
    rewrite (Hk e) by now apply list_elem_of_further. lia.
Qed.

(** Lists produced for increasing indices, with keys in consecutive
    ranges, concatenate to a list ordered by key. *)
Lemma StronglySorted_flat_map_seqZ {B} (key : B -> Z) (g : Z -> list B)
    (lo : Z -> Z) (m n : Z) :
  (forall x, m <= x < m + n -> StronglySorted (fun a b => key a <= key b) (g x)) ->
  (forall x e, m <= x < m + n -> e ∈ g x -> lo x <= key e < lo (x + 1)) ->
  (forall x y, x <= y -> lo x <= lo y) ->
  StronglySorted (fun a b => key a <= key b) (flat_map g (seqZ m n)).
Proof.
  intros Hs Hrange Hmono.
  destruct (Z.le_gt_cases n 0) as [Hn | Hn].
  { rewrite seqZ_nil by exact Hn. constructor. }
  rewrite <- (Z2Nat.id n) in * by lia.
  generalize dependent m. clear Hn.
  induction (Z.to_nat n) as [|k IH]; intros m Hs Hrange; [constructor|].
  rewrite seqZ_cons by lia. cbn [flat_map].
  replace (Z.pred (Z.of_nat (S k))) with (Z.of_nat k) by lia.
  apply StronglySorted_app_2.
  - intros e1 e2 H1 H2.
    apply list_elem_of_In, in_flat_map in H2 as (y & Hy & H2).
    apply list_elem_of_In, elem_of_seqZ in Hy. apply list_elem_of_In in H2.
    pose proof (Hrange m e1 ltac:(lia) H1).
    pose proof (Hrange y e2 ltac:(lia) H2).
    pose proof (Hmono (m + 1) y ltac:(lia)). lia.
  - apply Hs. lia.
  - apply IH.
    + intros x Hx. apply Hs. lia.
    + intros x e Hx. apply Hrange. lia.
Qed.

(** X24: the edges come out ordered by source id, so all edges that leave
    one node are neighbours in the list. *)
Theorem grid_edges_ordered_by_source (rows columns id_base : Z) :
  0 <= id_base -> id_base + rows * columns < 2 ^ 31 ->
  0 <= rows -> 0 <= columns ->
  StronglySorted
    (fun a b => GraphGenerator.source a <= GraphGenerator.source b)
    (GraphGenerator.makeGridEdges rows columns id_base).
Proof.
  intros Hb Hmax Hrows Hcols. unfold GraphGenerator.makeGridEdges.
  assert (Hsrc : forall r c e, 0 <= r < rows -> 0 <= c < columns ->
            e ∈ GraphGenerator.cell_edges rows columns id_base r c ->
            GraphGenerator.source e = id_base + r * columns + c).
  { intros r c e Hr Hc He.
    apply elem_of_cell_edges in He as (r' & c' & _ & _ & _ & ->);
      try assumption. reflexivity. }
  apply (StronglySorted_flat_map_seqZ GraphGenerator.source _
           (fun r => id_base + r * columns)).
  - intros r Hr.
    apply (StronglySorted_flat_map_seqZ GraphGenerator.source _
             (fun c => id_base + r * columns + c)).
    + intros c Hc. apply (StronglySorted_same_key _ (id_base + r * columns + c)).
      intros e He. apply Hsrc; assumption || lia.
    + intros c e Hc He. rewrite (Hsrc r c e) by (assumption || lia). lia.
    + intros x y Hxy. lia.
  - intros r e Hr He.
    apply list_elem_of_In, in_flat_map in He as (c & Hc & He).
    apply list_elem_of_In, elem_of_seqZ in Hc. apply list_elem_of_In in He.
    rewrite (Hsrc r c e) by (assumption || lia). nia.
  - intros x y Hxy. nia.
Qed.

Lemma grid_edges_ordered_by_source_witness :
  StronglySorted
    (fun a b => GraphGenerator.source a <= GraphGenerator.source b)
    (GraphGenerator.makeGridEdges 4 4 0).
Proof.
  apply (grid_edges_ordered_by_source 4 4 0); lia.
Defined.

(** ** The grid coordinates *)

(** Rows of equal length, concatenated: the element at position
    [r * width + i] is the [i]-th of row [r]. *)
Lemma flat_map_rows {A} (g : Z -> list A) (width : nat) (rows : nat) :
  (forall r, length (g r) = width) ->
  length (flat_map g (seqZ 0 (Z.of_nat rows))) = (rows * width)%nat
  /\ forall r i, (r < rows)%nat -> (i < width)%nat ->
       flat_map g (seqZ 0 (Z.of_nat rows)) !! (r * width + i)%nat
       = g (Z.of_nat r) !! i.
Proof.
  intros Hw. induction rows as [|k [IHlen IHget]].
  - split; [reflexivity | intros r i Hr; lia].
  - assert (Hsplit : seqZ 0 (Z.of_nat (S k)) = seqZ 0 (Z.of_nat k) ++ [Z.of_nat k]).
    { replace (Z.of_nat (S k)) with (Z.of_nat k + 1) by lia.
      rewrite seqZ_app by lia. reflexivity. }
    rewrite Hsplit, flat_map_app. cbn [flat_map]. rewrite app_nil_r. split.
    + rewrite length_app, IHlen, Hw. lia.
    + intros r i Hr Hi. destruct (Nat.eq_dec r k) as [-> | Hne].
      * rewrite lookup_app_r by (rewrite IHlen; lia).
        rewrite IHlen. f_equal. lia.
      * rewrite lookup_app_l by (rewrite IHlen; nia).
        apply IHget; lia.
Qed.

(** X25: [makeGridCoordinates] returns [rows * columns] coordinates, and
    the coordinate of the cell in row [r] and column [c] stands at the index
    [r * columns + c], the id [makeGridEdges] gives that cell for
    [id_base = 0]. *)
Theorem grid_coordinates_indexed_by_id `{GraphGenerator.FloatOps}
    (rows columns : Z)
    (step_size lon_base lat_base : GraphGenerator.double) (r c : Z) :
  0 <= rows -> 0 <= columns -> 0 <= r < rows -> 0 <= c < columns ->
  length (GraphGenerator.makeGridCoordinates rows columns
            step_size lon_base lat_base)
  = Z.to_nat (rows * columns)
  /\ GraphGenerator.makeGridCoordinates rows columns
       step_size lon_base lat_base
     !! Z.to_nat (GraphGenerator.get_id 0 columns r c)
     = Some (GraphGenerator.grid_coordinate step_size lon_base lat_base r c).
Proof.
  intros Hrows Hcols Hr Hc. unfold GraphGenerator.makeGridCoordinates.
  rewrite <- (Z2Nat.id rows) at 1 3 by lia.
  destruct (flat_map_rows
              (fun r => map (fun c => GraphGenerator.grid_coordinate
                                        step_size lon_base lat_base r c)
                            (seqZ 0 columns))
              (Z.to_nat columns) (Z.to_nat rows)) as [Hlen Hget].
  { intros r0. now rewrite length_map, length_seqZ. }
  split.
  - rewrite Hlen. rewrite Z2Nat.inj_mul by lia. reflexivity.
  - unfold GraphGenerator.get_id.
    replace (Z.to_nat (0 + r * columns + c))
      with (Z.to_nat r * Z.to_nat columns + Z.to_nat c)%nat by nia.
    rewrite Hget by lia. rewrite Z2Nat.id by lia.
    change (map ?f ?l) with (f <$> l).
    rewrite list_lookup_fmap, lookup_seqZ_lt by lia.
    cbn. do 2 f_equal. lia.
Qed.

Lemma grid_coordinates_indexed_by_id_witness :
  length (@GraphGenerator.makeGridCoordinates integer_floats 4 4 10 100 200)
  = Z.to_nat (4 * 4)
  /\ @GraphGenerator.makeGridCoordinates integer_floats 4 4 10 100 200
     !! Z.to_nat (GraphGenerator.get_id 0 4 1 2)
     = Some (@GraphGenerator.grid_coordinate integer_floats 10 100 200 1 2).
Proof.
  apply (@grid_coordinates_indexed_by_id integer_floats 4 4 10 100 200 1 2); lia.
Defined.
